(** * App Store update monitor (Script/AppStore/AppStoreMonitor.js)

    A shallow embedding of the monitor script and the properties of its
    three parts: the version comparator [compareVersions], the ordered
    region probe inside [checkAppUpdate] / [lookupApp], and the run
    orchestration [main].

    Modelling conventions.
    - A JavaScript string is the list of its UTF-16 code units, each an [N].
    - A JavaScript Number that holds an integer is a [Z]; [+Infinity] and
      [-Infinity], which [parseInt] yields on very long digit runs, are the
      two sentinels [infinity] and [- infinity], which lie strictly outside
      the finite doubles, so that [<] and [>] on [Z] agree with the
      comparison of the Numbers.  [-0] and [+0] are both [0]: the script
      only ever compares them and tests them for truthiness.
    - [NaN], [null] and [undefined] are [None].
    - Host services ([JSON.parse], [JSON.stringify], [toLowerCase], the HTTP
      client, the order in which pending requests complete) are the
      variables of a section.  Every request is assumed to be answered: a
      request that never completes keeps [Promise.all] pending and the run
      from reaching its final write.
    - The table [monitoredData] is a finite map from identifiers to
      records.  Stored values that are not objects of records, and
      identifiers that name a property of [Object.prototype], are outside
      the model. *)

From Stdlib Require Import ZArith NArith String Ascii.
From stdpp Require Import base option list gmap.

Open Scope Z_scope.

(** ** JavaScript strings and the built-ins the script calls *)

Module JS.

Abbreviation jsstring := (list N).

(** The code units of an ASCII literal. *)
Definition of_string (s : string) : jsstring :=
  map N_of_ascii (list_ascii_of_string s).

(** ECMAScript LineTerminator: LF, CR, LS, PS.  The regular expression
    atom [.] (without the [s] flag) matches everything else. *)
Definition is_line_terminator (c : N) : bool :=
  ((c =? 10) || (c =? 13) || (c =? 8232) || (c =? 8233))%N.

(** ECMAScript WhiteSpace and LineTerminator: the set removed by
    [String.prototype.trim], skipped by [parseInt], and matched by the
    regular expression class [\s]. *)
Definition is_whitespace (c : N) : bool :=
  ((c =? 9) || (c =? 11) || (c =? 12) || (c =? 32) || (c =? 160)
   || (c =? 5760) || ((8192 <=? c) && (c <=? 8202))
   || (c =? 8239) || (c =? 8287) || (c =? 12288) || (c =? 65279))%N
  || is_line_terminator c.

(** The regular expression class [\d], and the digits of radix 10. *)
Definition is_digit (c : N) : bool := ((48 <=? c) && (c <=? 57))%N.

Fixpoint drop_while (p : N → bool) (s : jsstring) : jsstring :=
  match s with
  | [] => []
  | c :: s' => if p c then drop_while p s' else s
  end.

Fixpoint take_while (p : N → bool) (s : jsstring) : jsstring :=
  match s with
  | [] => []
  | c :: s' => if p c then c :: take_while p s' else []
  end.

Definition trim_start (s : jsstring) : jsstring := drop_while is_whitespace s.
Definition trim_end (s : jsstring) : jsstring :=
  reverse (drop_while is_whitespace (reverse s)).

(** [s.trim()] *)
Definition trim (s : jsstring) : jsstring := trim_end (trim_start s).

(** [s.split(sep)] for a one-character separator: the empty string splits
    into one empty piece. *)
Fixpoint split (sep : N) (s : jsstring) : list jsstring :=
  match s with
  | [] => [[]]
  | c :: s' =>
      if (c =? sep)%N then [] :: split sep s'
      else match split sep s' with
           | piece :: rest => (c :: piece) :: rest
           | [] => [[c]]
           end
  end.

(** Truthiness of a string value: [Boolean(s)]. *)
Definition truthy (s : jsstring) : bool :=
  match s with [] => false | _ => true end.

(** Truthiness of a value that is a string, [null] or [undefined]. *)
Definition truthy_opt (o : option jsstring) : bool :=
  match o with Some s => truthy s | None => false end.

(** The stand-in for [Infinity]: the first power of two above every
    finite double. *)
Definition infinity : Z := 2 ^ 1024.

(** The Number nearest to a non-negative integer (round to nearest, ties
    to even, 53 bits of precision), as the engines compute the value of a
    decimal digit run. *)
Definition to_number (n : Z) : Z :=
  if n <? 2 ^ 53 then n
  else
    let e := Z.log2 n - 52 in
    let q := n / 2 ^ e in
    let r := n mod 2 ^ e in
    let half := 2 ^ (e - 1) in
    let q' := if (half <? r) || ((r =? half) && Z.odd q) then q + 1 else q in
    let m := q' * 2 ^ e in
    if infinity <=? m then infinity else m.

(** The mathematical value of a run of decimal digits. *)
Definition digits_value (ds : jsstring) : Z :=
  foldl (λ acc c, acc * 10 + (Z.of_N c - 48)) 0 ds.

(** The sign step of [parseInt]: a leading [-] gives sign [-1]; a leading
    [-] or [+] is removed. *)
Definition strip_sign (s : jsstring) : Z * jsstring :=
  match s with
  | 45%N :: r => (-1, r)
  | 43%N :: r => (1, r)
  | _ => (1, s)
  end.

(** [parseInt(s, 10)]: skip leading white space, read an optional sign,
    read the longest run of decimal digits and ignore whatever follows;
    [None] is [NaN], returned when there is no digit to read. *)
Definition parseInt (s : jsstring) : option Z :=
  let '(sign, s2) := strip_sign (trim_start s) in
  match take_while is_digit s2 with
  | [] => None
  | ds => Some (sign * to_number (digits_value ds))
  end.

(** [n || 0] and [isNaN(n) ? 0 : n] on a Number that is an integer or
    [NaN]/[undefined]. *)
Definition or_zero (o : option Z) : Z :=
  match o with Some n => n | None => 0 end.

End JS.

Import JS.

(** ** The version comparator *)

Module Version.

(** The tail [\s*\((\d+)\)$] of the pattern; the result is group 2.
    Both quantifiers are followed by a character outside their own class,
    so giving back characters never produces a match: the greedy choice is
    the only one to try. *)
Definition match_build_suffix (s : jsstring) : option jsstring :=
  match drop_while is_whitespace s with
  | 40%N :: r =>
      let ds := take_while is_digit r in
      match ds, drop_while is_digit r with
      | _ :: _, [41%N] => Some ds
      | _, _ => None
      end
  | _ => None
  end.

(** The lazy group [(.+?)], having consumed [acc]: first try to finish the
    match here, and only on failure consume one more character, which must
    not be a line terminator. *)
Fixpoint match_lazy_main (acc s : jsstring) : option (jsstring * jsstring) :=
  match match_build_suffix s with
  | Some ds => Some (acc, ds)
  | None =>
      match s with
      | [] => None
      | c :: s' =>
          if is_line_terminator c then None
          else match_lazy_main (acc ++ [c]) s'
      end
  end.

(** [v.match(/^(.+?)\s*\((\d+)\)$/)]: the groups [(m[1], m[2])]. *)
Definition match_version (v : jsstring) : option (jsstring * jsstring) :=
  match v with
  | [] => None
  | c :: s => if is_line_terminator c then None else match_lazy_main [c] s
  end.

Record ParsedVersion := { parts : list Z; build : Z }.

(** The first half of [parse]: the trimmed input is cut into [main] and
    [build]. *)
Definition split_build (v : jsstring) : jsstring * Z :=
  let v := trim v in
  match match_version v with
  | Some (m1, m2) => (trim m1, or_zero (parseInt m2))
  | None => (v, 0)
  end.

(** The dotted segments of the main part, [main.split('.')]. *)
Definition segments (v : jsstring) : list jsstring :=
  split 46 (split_build v).1.

(** The callback of [map]: [isNaN(n) ? 0 : n] for [n = parseInt(p, 10)]. *)
Definition segment_value (p : jsstring) : Z := or_zero (parseInt p).

Definition parse (v : jsstring) : ParsedVersion :=
  {| parts := map segment_value (segments v);
     build := (split_build v).2 |}.

(** The [for] loop of [compareVersions] from index [i], with [n] rounds
    left; [None] when the loop ends without returning. *)
Fixpoint compare_parts (a b : list Z) (i n : nat) : option Z :=
  match n with
  | O => None
  | S n' =>
      let x := or_zero (a !! i) in
      let y := or_zero (b !! i) in
      if x >? y then Some 1
      else if x <? y then Some (-1)
      else compare_parts a b (S i) n'
  end.

(** [compareVersions(v1, v2)] on strings.  On strings no statement of the
    [try] block throws, so the [catch] branch is not entered. *)
Definition compareVersions (v1 v2 : jsstring) : Z :=
  let a := parse v1 in
  let b := parse v2 in
  let len := Nat.max (length (parts a)) (length (parts b)) in
  match compare_parts (parts a) (parts b) 0 len with
  | Some r => r
  | None =>
      if build a >? build b then 1
      else if build a <? build b then -1
      else 0
  end.

End Version.

Import Version.

(** ** The monitor run *)

Module AppInfo.
(** One entry of the [results] array of a lookup payload, with the fields
    the script reads. *)
Record t := {
  trackName : jsstring;
  version : jsstring;
  releaseNotes : option jsstring;
  currentVersionReleaseDate : jsstring
}.
End AppInfo.

Module AppRecord.
(** One value of the persisted table.  A record whose [version] field is
    missing behaves, in every test the script makes, like one whose
    version is the empty string: both are falsy. *)
Record t := { version : jsstring; region : jsstring; name : jsstring }.
End AppRecord.

Module Monitor.

(** What the catalog lookup callback receives: [error] (truthy or not),
    [response?.status] and [data]. *)
Record HttpReply := {
  error : bool;
  status : option Z;
  data : jsstring
}.

(** What the script reads of a parsed payload.  [results] is [None] when
    the payload has no such array, so that [json.results[0]] throws. *)
Record LookupJson := {
  resultCount : Z;
  results : option (list AppInfo.t)
}.

(** The lines pushed on the log buckets and printed for removals, by the
    template that produces them and the values put into it. *)
Inductive LogLine :=
| LogInitial (regionUsed appName appId newVersion : jsstring)
| LogUpdated (regionUsed appName appId storedVersion newVersion : jsstring)
| LogRegressed (regionUsed appName appId newVersion storedVersion : jsstring)
| LogLatest (regionUsed appName appId newVersion : jsstring)
| LogNotFound (appId : jsstring) (regions : list jsstring)
| LogRemoved (appName : jsstring).

Record Logs := {
  initial : list LogLine;
  updated : list LogLine;
  noUpdate : list LogLine;
  notFound : list LogLine
}.

(** The calls of [$notification.post], by template and values. *)
Inductive Notification :=
| NotConfigured
| UpdateAvailable
    (appName regionUsed storedVersion newVersion updateDate releaseNotes
       openUrl : jsstring)
| AddedToMonitoring
    (appName regionUsed newVersion updateDate openUrl : jsstring).

(** The four observation classes; each log template of [checkAppUpdate]
    announces one. *)
Inductive Class := FirstSeen | Updated | StaleOrRegressed | Unchanged.

Definition class_of (l : LogLine) : option Class :=
  match l with
  | LogInitial _ _ _ _ => Some FirstSeen
  | LogUpdated _ _ _ _ _ => Some Updated
  | LogRegressed _ _ _ _ _ => Some StaleOrRegressed
  | LogLatest _ _ _ _ => Some Unchanged
  | LogNotFound _ _ | LogRemoved _ => None
  end.

(** The objects every task shares: the table [monitoredData], the buckets
    [logs], and the notifications posted so far (oldest first).
    [queried] is not script state: it records, per finished task, the
    task, its identifier and the regions it sent a request to, in order. *)
Record Shared := {
  monitoredData : gmap jsstring AppRecord.t;
  logs : Logs;
  posted : list Notification;
  queried : list (nat * jsstring * list jsstring)
}.

(** The three keys of [$persistentStore]; [None] is a key never written. *)
Record Store := {
  AppStore_AppID : option jsstring;
  AppStore_Region : option jsstring;
  AppStore_Monitored_Apps : option jsstring
}.

(** What one run of [main] did: the values written under
    [MONITORED_APPS_KEY] (oldest first), the notifications, the removal
    lines, the buckets, the requests and the table held in memory at the
    end ([∅] on the two paths that never build one).  Every path ends in
    [$done()]; purely informational console lines are left out. *)
Record Run := {
  written : list jsstring;
  notifications : list Notification;
  removed : list LogLine;
  buckets : Logs;
  requests : list (nat * jsstring * list jsstring);
  table : gmap jsstring AppRecord.t
}.

Definition store_after (s : Store) (r : Run) : Store :=
  {| AppStore_AppID := AppStore_AppID s;
     AppStore_Region := AppStore_Region s;
     AppStore_Monitored_Apps :=
       match last (written r) with
       | Some v => Some v
       | None => AppStore_Monitored_Apps s
       end |}.

Definition no_logs : Logs :=
  {| initial := []; updated := []; noUpdate := []; notFound := [] |}.

Definition push_initial (l : LogLine) (g : Logs) : Logs :=
  {| initial := initial g ++ [l]; updated := updated g;
     noUpdate := noUpdate g; notFound := notFound g |}.
Definition push_updated (l : LogLine) (g : Logs) : Logs :=
  {| initial := initial g; updated := updated g ++ [l];
     noUpdate := noUpdate g; notFound := notFound g |}.
Definition push_noUpdate (l : LogLine) (g : Logs) : Logs :=
  {| initial := initial g; updated := updated g;
     noUpdate := noUpdate g ++ [l]; notFound := notFound g |}.
Definition push_notFound (l : LogLine) (g : Logs) : Logs :=
  {| initial := initial g; updated := updated g;
     noUpdate := noUpdate g; notFound := notFound g ++ [l] |}.

Definition defaultRegions : list jsstring :=
  map of_string ["us"; "cn"; "hk"; "mo"; "tw"; "jp"; "kr"; "sg"; "tr"]%string.

(** The placeholder used when the entry has no release notes. *)
Definition noReleaseNotes : jsstring :=
  [26242; 26080; 26356; 26032; 35828; 26126]%N.

Definition openUrl (regionUsed appId : jsstring) : jsstring :=
  of_string "https://apps.apple.com/" ++ regionUsed
    ++ of_string "/app/id" ++ appId.

(** [monitoredData[appId]?.version || null] *)
Definition storedVersion_of
    (md : gmap jsstring AppRecord.t) (appId : jsstring) : option jsstring :=
  match md !! appId with
  | Some r => if truthy (AppRecord.version r) then Some (AppRecord.version r) else None
  | None => None
  end.

(** [appStoreIds ? appStoreIds.split(',').map(id => id.trim()).filter(Boolean) : []] *)
Definition newIds_of (appStoreIds : option jsstring) : list jsstring :=
  match appStoreIds with
  | Some ids => if truthy ids then List.filter truthy (map trim (split 44 ids)) else []
  | None => []
  end.

(** [!storedData || storedData === '{}' || storedData === ''] *)
Definition no_stored_data (storedData : option jsstring) : bool :=
  negb (truthy_opt storedData)
  || bool_decide (storedData = Some (of_string "{}"))
  || bool_decide (storedData = Some []).

(** [storedData && storedData !== '{}' && storedData !== ''] *)
Definition has_stored_data (storedData : option jsstring) : bool :=
  truthy_opt storedData
  && negb (bool_decide (storedData = Some (of_string "{}")))
  && negb (bool_decide (storedData = Some [])).

(** [handleDeletions]: the keys of the table that are not tracked any
    more are deleted, one removal line each.  The order in which a
    JavaScript object lists its keys is not tracked; it only orders the
    removal lines. *)
Definition handleDeletions
    (newIds : list jsstring) (md : gmap jsstring AppRecord.t)
    : gmap jsstring AppRecord.t * list LogLine :=
  let oldIds := (map_to_list md).*1 in
  let deletedIds := List.filter (λ id, negb (bool_decide (id ∈ newIds))) oldIds in
  (foldl (λ m id, delete id m) md deletedIds,
   omap (λ id, (λ r, LogRemoved
                       (if truthy (AppRecord.name r) then AppRecord.name r
                        else of_string "ID: " ++ id)) <$> md !! id)
        deletedIds).

(** The second half of [checkAppUpdate], after a region answered: the log
    line, then the table entry and the notification.  It contains no
    [await], so it runs without interruption. *)
Definition record_observation
    (appId : jsstring) (appInfo : AppInfo.t) (regionUsed : jsstring)
    (sh : Shared) : Shared :=
  let appName := AppInfo.trackName appInfo in
  let newVersion := AppInfo.version appInfo in
  let releaseNotes :=
    match AppInfo.releaseNotes appInfo with
    | Some n => if truthy n then n else noReleaseNotes
    | None => noReleaseNotes
    end in
  let updateDate := AppInfo.currentVersionReleaseDate appInfo in
  let storedVersion := storedVersion_of (monitoredData sh) appId in
  let logs1 :=
    match storedVersion with
    | None => push_initial (LogInitial regionUsed appName appId newVersion) (logs sh)
    | Some sv =>
        let cmp := compareVersions newVersion sv in
        if cmp >? 0 then
          push_updated (LogUpdated regionUsed appName appId sv newVersion) (logs sh)
        else if cmp <? 0 then
          push_noUpdate (LogRegressed regionUsed appName appId newVersion sv) (logs sh)
        else
          push_noUpdate (LogLatest regionUsed appName appId newVersion) (logs sh)
    end in
  let entry :=
    {| AppRecord.version := newVersion; AppRecord.region := regionUsed;
       AppRecord.name := appName |} in
  let accept :=
    match storedVersion with
    | None => true
    | Some sv => compareVersions newVersion sv >? 0
    end in
  if accept then
    {| monitoredData := <[appId := entry]> (monitoredData sh);
       logs := logs1;
       posted := posted sh ++
         [match storedVersion with
          | Some sv =>
              UpdateAvailable appName regionUsed sv newVersion updateDate
                releaseNotes (openUrl regionUsed appId)
          | None =>
              AddedToMonitoring appName regionUsed newVersion updateDate
                (openUrl regionUsed appId)
          end];
       queried := queried sh |}
  else if negb (bool_decide (is_Some (monitoredData sh !! appId))) then
    {| monitoredData := <[appId := entry]> (monitoredData sh);
       logs := logs1; posted := posted sh; queried := queried sh |}
  else
    {| monitoredData := monitoredData sh;
       logs := logs1; posted := posted sh; queried := queried sh |}.

Section Host.

(** [JSON.parse] on the stored blob ([None]: it throws) and
    [JSON.stringify] on the table. *)
Variable JSON_parse_table : jsstring → option (gmap jsstring AppRecord.t).
Variable JSON_stringify : gmap jsstring AppRecord.t → jsstring.
(** [JSON.parse] on a lookup payload ([None]: it throws). *)
Variable JSON_parse_lookup : jsstring → option LookupJson.
Variable toLowerCase : jsstring → jsstring.
(** The reply to the request that task [task] sends as its [attempt]-th
    one, for [region] and [appId]. *)
Variable httpGet : nat → nat → jsstring → jsstring → HttpReply.
(** The order in which the tasks of this run see their last reply. *)
Variable completion : list nat.

(** [lookupApp(region, appId)], resolved: the first result, or [None]
    for [null] and [undefined]. *)
Definition lookupApp (task attempt : nat) (region appId : jsstring)
    : option AppInfo.t :=
  let reply := httpGet task attempt region appId in
  if error reply || negb (bool_decide (status reply = Some 200)) then None
  else
    match JSON_parse_lookup (data reply) with
    | None => None
    | Some json =>
        if resultCount json >? 0 then
          match results json with
          | Some rs => head rs
          | None => None
          end
        else None
    end.

(** The [for] loop of [checkAppUpdate]: the answer with the region that
    gave it, and the regions a request was sent to. *)
Fixpoint probe (task attempt : nat) (appId : jsstring)
    (searchOrder : list jsstring)
    : option (AppInfo.t * jsstring) * list jsstring :=
  match searchOrder with
  | [] => (None, [])
  | region :: rest =>
      match lookupApp task attempt region appId with
      | Some appInfo => (Some (appInfo, region), [region])
      | None =>
          let '(found, asked) := probe task (S attempt) appId rest in
          (found, region :: asked)
      end
  end.

(** [checkAppUpdate(appId, monitoredData, regions, logs)] as task number
    [task].  The requests touch nothing that is shared, so the task acts
    on the shared objects at one point in time, when its last reply has
    arrived. *)
Definition checkAppUpdate (task : nat) (appId : jsstring)
    (regions : list jsstring) (sh : Shared) : Shared :=
  let '(found, asked) := probe task 0 appId regions in
  let sh :=
    {| monitoredData := monitoredData sh; logs := logs sh;
       posted := posted sh;
       queried := queried sh ++ [(task, appId, asked)] |} in
  match found with
  | None =>
      {| monitoredData := monitoredData sh;
         logs := push_notFound (LogNotFound appId regions) (logs sh);
         posted := posted sh; queried := queried sh |}
  | Some (appInfo, regionUsed) =>
      record_observation appId appInfo regionUsed sh
  end.

(** The region order: the custom one if it has an entry, else the
    default. *)
Definition regions_of (customRegionsRaw : option jsstring) : list jsstring :=
  match customRegionsRaw with
  | Some raw =>
      if truthy raw then
        let customRegions :=
          List.filter truthy (map (λ r, toLowerCase (trim r)) (split 44 raw)) in
        if (0 <? length customRegions)%nat then customRegions
        else defaultRegions
      else defaultRegions
  | None => defaultRegions
  end.

(** [Promise.all(newIds.map(id => checkAppUpdate(...)))]: one task per
    entry of [newIds], numbered by position, acting in [completion]
    order. *)
Definition run_tasks (newIds regions : list jsstring) (order : list nat)
    (sh : Shared) : Shared :=
  foldl (λ sh task,
           match newIds !! task with
           | Some appId => checkAppUpdate task appId regions sh
           | None => sh
           end) sh order.

(** The table [monitoredData] as [main] builds it before the deletions:
    empty, unless there is a stored blob and it parses. *)
Definition load_table (storedData : option jsstring)
    : gmap jsstring AppRecord.t :=
  match storedData with
  | Some blob =>
      if truthy blob then
        match JSON_parse_table blob with
        | Some t => t
        | None => ∅
        end
      else ∅
  | None => ∅
  end.

(** The shared objects when the tasks start. *)
Definition fresh (kept : gmap jsstring AppRecord.t) : Shared :=
  {| monitoredData := kept; logs := no_logs; posted := []; queried := [] |}.

(** [main()]: the unconfigured path, the emptied-configuration path, and the
    active path (load, delete, resolve and classify every identifier, write
    the table once). *)
Definition main (store : Store) : Run :=
  let appStoreIds := AppStore_AppID store in
  let storedData := AppStore_Monitored_Apps store in
  if negb (truthy_opt appStoreIds) && no_stored_data storedData then
    {| written := []; notifications := [NotConfigured]; removed := [];
       buckets := no_logs; requests := []; table := ∅ |}
  else
    let newIds := newIds_of appStoreIds in
    if (length newIds =? 0)%nat then
      {| written := if has_stored_data storedData then [[]] else [];
         notifications := []; removed := [];
         buckets := no_logs; requests := []; table := ∅ |}
    else
      let '(kept, removal_lines) :=
        handleDeletions newIds (load_table storedData) in
      let regions := regions_of (AppStore_Region store) in
      let sh :=
        run_tasks newIds regions completion (fresh kept) in
      {| written := [JSON_stringify (monitoredData sh)];
         notifications := posted sh; removed := removal_lines;
         buckets := logs sh; requests := queried sh;
         table := monitoredData sh |}.

End Host.

End Monitor.

Import Monitor.

(** ** Vocabulary of the statements *)

(** A dotted segment in which [parseInt] finds no number: after leading
    white space and at most one sign, it does not start with a digit. *)
Definition non_numeric (p : jsstring) : Prop :=
  match (strip_sign (trim_start p)).2 with
  | c :: _ => is_digit c = false
  | [] => True
  end.

(** The bucket that receives the line of each class. *)
Definition push_class (c : Class) : LogLine → Logs → Logs :=
  match c with
  | FirstSeen => push_initial
  | Updated => push_updated
  | StaleOrRegressed | Unchanged => push_noUpdate
  end.

(** The step from [before] to [after] logged an observation of class [c]. *)
Definition classified (c : Class) (before after : Logs) : Prop :=
  ∃ line, class_of line = Some c ∧ after = push_class c line before.

(** The table entry [checkAppUpdate] writes for an accepted observation. *)
Definition entry_of (appInfo : AppInfo.t) (regionUsed : jsstring) : AppRecord.t :=
  {| AppRecord.version := AppInfo.version appInfo;
     AppRecord.region := regionUsed;
     AppRecord.name := AppInfo.trackName appInfo |}.

(** No usable stored version: no record under the identifier, or a record
    whose version is empty. *)
Definition no_stored_version
    (md : gmap jsstring AppRecord.t) (appId : jsstring) : Prop :=
  md !! appId = None ∨ ∃ r, md !! appId = Some r ∧ AppRecord.version r = [].

(** The ways one region probe fails: transport error, a status other than
    200, a payload that does not parse, a payload without results. *)
Definition failed_reply
    (parse : jsstring → option LookupJson) (reply : HttpReply) : Prop :=
  error reply = true
  ∨ status reply ≠ Some 200
  ∨ parse (data reply) = None
  ∨ ∃ json, parse (data reply) = Some json ∧ resultCount json ≤ 0.

(** Some line of the first-seen bucket is about [appId]. *)
Definition first_seen (g : Logs) (appId : jsstring) : Prop :=
  ∃ regionUsed appName newVersion,
    LogInitial regionUsed appName appId newVersion ∈ initial g.

(** The comparator on ASCII literals. *)
Definition compare (a b : string) : Z :=
  compareVersions (of_string a) (of_string b).

(** The loop over the parts did not decide for the second argument: it
    returned 1 or ran to its end. *)
Definition not_below (o : option Z) : Prop := o = Some 1 ∨ o = None.

(** The number of lines in the four buckets. *)
Definition total_lines (g : Logs) : nat :=
  (length (initial g) + length (updated g)
   + length (noUpdate g) + length (notFound g))%nat.

(** The line [handleDeletions] prints for a removed record. *)
Definition removal_line (id : jsstring) (r : AppRecord.t) : LogLine :=
  LogRemoved (if truthy (AppRecord.name r) then AppRecord.name r
              else of_string "ID: " ++ id).

(** ** A small concrete host, for worked runs *)

Module Demo.

(** A catalog in which the region [us] answers with status 500 and [cn]
    answers with the payload [body]; every other region is unreachable. *)
Definition http (body : jsstring) (task attempt : nat)
    (region appId : jsstring) : HttpReply :=
  match region with
  | [117; 115]%N => {| error := false; status := Some 500; data := [] |}
  | [99; 110]%N => {| error := false; status := Some 200; data := body |}
  | _ => {| error := true; status := None; data := [] |}
  end.

(** A payload reader that takes a non-empty payload for the version of the
    single result it describes. *)
Definition parse_lookup (payload : jsstring) : option LookupJson :=
  match payload with
  | [] => None
  | _ =>
      Some {| resultCount := 1;
              results :=
                Some [ {| AppInfo.trackName := of_string "App";
                          AppInfo.version := payload;
                          AppInfo.releaseNotes := None;
                          AppInfo.currentVersionReleaseDate := [] |} ] |}
  end.

(** A table reader on which every blob fails, and a writer that prints the
    number of records. *)
Definition parse_table (blob : jsstring) : option (gmap jsstring AppRecord.t) :=
  None.
Definition stringify (t : gmap jsstring AppRecord.t) : jsstring :=
  [N.of_nat (size t) + 48]%N.

Definition lower (s : jsstring) : jsstring := s.

(** A table reader that takes the blob for the version of the one record it
    describes, that of [1]. *)
Definition parse_known (blob : jsstring) : option (gmap jsstring AppRecord.t) :=
  Some {[ of_string "1" :=
            {| AppRecord.version := blob; AppRecord.region := of_string "us";
               AppRecord.name := of_string "App" |} ]}.

Definition app (v : jsstring) : AppInfo.t :=
  {| AppInfo.trackName := of_string "App"; AppInfo.version := v;
     AppInfo.releaseNotes := None; AppInfo.currentVersionReleaseDate := [] |}.

Definition stored (v : jsstring) : AppRecord.t :=
  {| AppRecord.version := v; AppRecord.region := of_string "us";
     AppRecord.name := of_string "App" |}.

Definition id1 : jsstring := of_string "1".
Definition us : jsstring := of_string "us".
Definition cn : jsstring := of_string "cn".

(** The shared objects with one record for [id1], of version [v]. *)
Definition tracking (v : jsstring) : Shared :=
  {| monitoredData := {[ id1 := stored v ]}; logs := no_logs;
     posted := []; queried := [] |}.

Definition store (ids stored_blob : option jsstring) : Store :=
  {| AppStore_AppID := ids; AppStore_Region := Some (of_string "us,cn");
     AppStore_Monitored_Apps := stored_blob |}.

End Demo.

(** * Properties of the comparator *)

Section Comparator.

Lemma compare_parts_swap (a b : list Z) (i n : nat) :
  compare_parts b a i n = Z.opp <$> compare_parts a b i n.
Proof.
  revert i. induction n as [|n IH]; intros i; simpl; [done|].
  destruct (Z.gtb_spec (or_zero (a !! i)) (or_zero (b !! i))) as [Hgt|Hle].
  - destruct (Z.gtb_spec (or_zero (b !! i)) (or_zero (a !! i))); [lia|].
    destruct (Z.ltb_spec (or_zero (b !! i)) (or_zero (a !! i))); [done|lia].
  - destruct (Z.ltb_spec (or_zero (a !! i)) (or_zero (b !! i))) as [Hlt|Hge].
    + destruct (Z.gtb_spec (or_zero (b !! i)) (or_zero (a !! i))); [done|lia].
    + destruct (Z.gtb_spec (or_zero (b !! i)) (or_zero (a !! i))); [lia|].
      destruct (Z.ltb_spec (or_zero (b !! i)) (or_zero (a !! i))); [lia|].
      apply IH.
Qed.

Lemma compare_parts_sign (a b : list Z) (i n : nat) (r : Z) :
  compare_parts a b i n = Some r → r = 1 ∨ r = -1.
Proof.
  revert i. induction n as [|n IH]; intros i; simpl; [done|].
  destruct (_ >? _); [naive_solver|].
  destruct (_ <? _); [naive_solver|]. apply IH.
Qed.

Lemma compareVersions_range (v1 v2 : jsstring) :
  compareVersions v1 v2 ∈ [-1; 0; 1].
Proof.
  unfold compareVersions.
  destruct (compare_parts _ _ _ _) as [r|] eqn:E.
  - apply compare_parts_sign in E as [-> | ->]; set_solver.
  - destruct (_ >? _); [set_solver|]. destruct (_ <? _); set_solver.
Qed.

(** C4.  The four worked comparisons of the specification. *)
Theorem compare_examples :
  compare "6.8(12)" "6.8(5)" = 1
  ∧ compare "6.8" "6.8(1)" = -1
  ∧ compare "1.2.0" "1.2" = 0
  ∧ compare "1.10.0" "1.9.9" = 1.
Proof. repeat split; vm_compute; reflexivity. Qed.

(** C5.  Antisymmetry: swapping the arguments of [compareVersions]
    negates the result, for every pair of strings. *)
Theorem compareVersions_antisym (a b : jsstring) :
  compareVersions a b = - compareVersions b a.
Proof.
  unfold compareVersions.
  rewrite (Nat.max_comm (length (parts (parse a)))).
  rewrite (compare_parts_swap (parts (parse b)) (parts (parse a))).
  destruct (compare_parts (parts (parse b)) (parts (parse a)) _ _) as [r|];
    cbn [fmap option_fmap option_map]; [lia|].
  destruct (Z.gtb_spec (build (parse a)) (build (parse b)));
    destruct (Z.ltb_spec (build (parse a)) (build (parse b)));
    destruct (Z.gtb_spec (build (parse b)) (build (parse a)));
    destruct (Z.ltb_spec (build (parse b)) (build (parse a))); lia.
Qed.

Lemma non_numeric_parseInt (p : jsstring) :
  non_numeric p ↔ parseInt p = None.
Proof.
  unfold non_numeric, parseInt.
  destruct (strip_sign (trim_start p)) as [sg [|c s2]]; simpl; [done|].
  destruct (is_digit c); naive_solver.
Qed.

(** C6.  A segment of the dotted main part in which no number can be read
    contributes [0] at its position of the parts sequence. *)
Theorem non_numeric_segment_is_zero (v : jsstring) (i : nat) (p : jsstring) :
  segments v !! i = Some p →
  non_numeric p →
  parts (parse v) !! i = Some 0.
Proof.
  intros Hseg Hnon. simpl.
  rewrite list_lookup_fmap, Hseg. simpl.
  apply non_numeric_parseInt in Hnon.
  unfold segment_value. by rewrite Hnon.
Qed.

Lemma non_numeric_segment_is_zero_witness :
  parts (parse (of_string "6.x")) !! 1%nat = Some 0.
Proof.
  apply (non_numeric_segment_is_zero (of_string "6.x") 1 (of_string "x")).
  - vm_compute. reflexivity.
  - vm_compute. reflexivity.
Defined.

End Comparator.

(** * Properties of one task: region resolution and classification *)

Section Task.

Variable JSON_parse_lookup : jsstring → option LookupJson.
Variable httpGet : nat → nat → jsstring → jsstring → HttpReply.

Abbreviation lookup := (lookupApp JSON_parse_lookup httpGet).
Abbreviation resolve := (probe JSON_parse_lookup httpGet).
Abbreviation checkApp := (checkAppUpdate JSON_parse_lookup httpGet).

Lemma lookupApp_failed (task attempt : nat) (region appId : jsstring) :
  failed_reply JSON_parse_lookup (httpGet task attempt region appId) →
  lookup task attempt region appId = None.
Proof.
  unfold failed_reply, lookupApp.
  intros [He | [Hs | [Hp | (json & Hp & Hc)]]].
  - by rewrite He.
  - rewrite (bool_decide_eq_false_2 _ Hs). by rewrite orb_true_r.
  - rewrite Hp. by destruct (_ || _).
  - rewrite Hp. destruct (_ || _); [done|].
    destruct (Z.gtb_spec (resultCount json) 0); [lia|done].
Qed.

(** The loop, started at attempt [a]: either every region missed and all
    were asked, or the regions asked are exactly those up to the first
    one that answered. *)
Lemma probe_spec (task : nat) (appId : jsstring) (regions : list jsstring) :
  ∀ (a : nat) found asked,
    resolve task a appId regions = (found, asked) →
    match found with
    | Some (appInfo, regionUsed) =>
        ∃ k : nat,
          regions !! k = Some regionUsed
          ∧ lookup task (a + k) regionUsed appId = Some appInfo
          ∧ (∀ (j : nat) r, (j < k)%nat → regions !! j = Some r →
               lookup task (a + j) r appId = None)
          ∧ asked = take (S k) regions
    | None =>
        (∀ (j : nat) r, regions !! j = Some r →
           lookup task (a + j) r appId = None)
        ∧ asked = regions
    end.
Proof.
  induction regions as [|region rest IH]; intros a found asked; simpl.
  - intros [= <- <-]. split; [|done]. intros j r. by rewrite lookup_nil.
  - destruct (lookup task a region appId) as [appInfo|] eqn:Hl.
    + intros [= <- <-]. exists 0%nat. rewrite Nat.add_0_r.
      repeat split; try done. intros j r Hj. lia.
    + destruct (resolve task (S a) appId rest) as [found' asked'] eqn:Hr.
      intros [= <- <-]. specialize (IH (S a) _ _ Hr).
      destruct found' as [[appInfo regionUsed]|].
      * destruct IH as (k & Hk & Hhit & Hmiss & ->).
        exists (S k). replace (a + S k)%nat with (S a + k)%nat by lia.
        repeat split; try done.
        intros [|j] r Hj; simpl.
        -- intros [= <-]. by rewrite Nat.add_0_r.
        -- intros Hr'. replace (a + S j)%nat with (S a + j)%nat by lia.
           apply Hmiss; [lia|done].
      * destruct IH as [Hmiss ->]. split; [|done].
        intros [|j] r; simpl.
        -- intros [= <-]. by rewrite Nat.add_0_r.
        -- intros Hr'. replace (a + S j)%nat with (S a + j)%nat by lia.
           by apply Hmiss.
Qed.

(** What the second half of [checkAppUpdate] does, by the stored version
    and the sign of the comparison. *)
Lemma record_observation_cases
    (appId : jsstring) (appInfo : AppInfo.t) (regionUsed : jsstring)
    (sh : Shared) :
  let sh' := record_observation appId appInfo regionUsed sh in
  let appName := AppInfo.trackName appInfo in
  let newVersion := AppInfo.version appInfo in
  let date := AppInfo.currentVersionReleaseDate appInfo in
  let url := openUrl regionUsed appId in
  let md := monitoredData sh in
  queried sh' = queried sh
  ∧ notFound (logs sh') = notFound (logs sh)
  ∧ match storedVersion_of md appId with
    | None =>
        logs sh' = push_initial (LogInitial regionUsed appName appId newVersion) (logs sh)
        ∧ monitoredData sh' = <[appId := entry_of appInfo regionUsed]> md
        ∧ posted sh' = posted sh ++
            [AddedToMonitoring appName regionUsed newVersion date url]
    | Some sv =>
        if compareVersions newVersion sv >? 0 then
          logs sh' = push_updated (LogUpdated regionUsed appName appId sv newVersion) (logs sh)
          ∧ monitoredData sh' = <[appId := entry_of appInfo regionUsed]> md
          ∧ ∃ notes, posted sh' = posted sh ++
              [UpdateAvailable appName regionUsed sv newVersion date notes url]
        else
          logs sh' =
            push_noUpdate
              (if compareVersions newVersion sv <? 0
               then LogRegressed regionUsed appName appId newVersion sv
               else LogLatest regionUsed appName appId newVersion) (logs sh)
          ∧ monitoredData sh' = md
          ∧ posted sh' = posted sh
    end.
Proof.
  unfold record_observation, storedVersion_of, entry_of. simpl.
  destruct (monitoredData sh !! appId) as [r|] eqn:Hr; simpl.
  - destruct (truthy (AppRecord.version r)); simpl.
    + destruct (compareVersions _ _ >? 0); simpl; [by eauto 10|].
      by destruct (compareVersions _ _ <? 0).
    + done.
  - done.
Qed.

Lemma storedVersion_of_None (md : gmap jsstring AppRecord.t) (appId : jsstring) :
  storedVersion_of md appId = None ↔ no_stored_version md appId.
Proof.
  unfold storedVersion_of, no_stored_version.
  destruct (md !! appId) as [r|]; [|by split; [left|]].
  destruct (AppRecord.version r) as [|c v] eqn:Hv; simpl.
  - split; [|done]. intros _. right. by exists r.
  - split; [done|]. intros [?|(r' & [= <-] & ?)]; congruence.
Qed.

Lemma storedVersion_of_Some
    (md : gmap jsstring AppRecord.t) (appId : jsstring) (r : AppRecord.t) :
  md !! appId = Some r → AppRecord.version r ≠ [] →
  storedVersion_of md appId = Some (AppRecord.version r).
Proof.
  unfold storedVersion_of. intros -> Hv.
  by destruct (AppRecord.version r).
Qed.

Lemma checkAppUpdate_cases (task : nat) (appId : jsstring)
    (regions : list jsstring) (sh : Shared) :
  let sh' := checkApp task appId regions sh in
  let asked := (resolve task 0 appId regions).2 in
  queried sh' = queried sh ++ [(task, appId, asked)]
  ∧ match (resolve task 0 appId regions).1 with
    | None =>
        logs sh' = push_notFound (LogNotFound appId regions) (logs sh)
        ∧ monitoredData sh' = monitoredData sh
        ∧ posted sh' = posted sh
    | Some (appInfo, regionUsed) =>
        ∃ sh0,
          sh' = record_observation appId appInfo regionUsed sh0
          ∧ monitoredData sh0 = monitoredData sh
          ∧ logs sh0 = logs sh
          ∧ posted sh0 = posted sh
    end.
Proof.
  unfold checkAppUpdate.
  destruct (resolve task 0 appId regions) as [[[appInfo regionUsed]|] asked];
    simpl; [|done].
  split; [apply record_observation_cases|].
  by eexists {| monitoredData := _; logs := _; posted := _; queried := _ |}.
Qed.

(** C3.  One identifier's regions are asked in the configured order; a
    failed probe of any kind is a miss and the next region is asked; the
    first answer ends the search, so the regions asked are exactly those
    up to it; and the not-found line, which lists the whole region order,
    is logged exactly when every region missed. *)
Theorem region_resolution (task : nat) (appId : jsstring)
    (regions : list jsstring) (sh : Shared) :
  ∀ found asked,
    resolve task 0 appId regions = (found, asked) →
    let sh' := checkApp task appId regions sh in
    (∀ (attempt : nat) region,
       failed_reply JSON_parse_lookup (httpGet task attempt region appId) →
       lookup task attempt region appId = None)
    ∧ queried sh' = queried sh ++ [(task, appId, asked)]
    ∧ match found with
      | Some (appInfo, regionUsed) =>
          ∃ k : nat,
            regions !! k = Some regionUsed
            ∧ lookup task k regionUsed appId = Some appInfo
            ∧ (∀ (j : nat) r, (j < k)%nat → regions !! j = Some r →
                 lookup task j r appId = None)
            ∧ asked = take (S k) regions
            ∧ notFound (logs sh') = notFound (logs sh)
      | None =>
          (∀ (j : nat) r, regions !! j = Some r →
             lookup task j r appId = None)
          ∧ asked = regions
          ∧ notFound (logs sh') =
              notFound (logs sh) ++ [LogNotFound appId regions]
          ∧ monitoredData sh' = monitoredData sh
          ∧ posted sh' = posted sh
      end.
Proof.
  intros found asked Hp sh'. subst sh'.
  split; [intros attempt region; apply lookupApp_failed|].
  pose proof (checkAppUpdate_cases task appId regions sh) as [Hq Hc].
  rewrite Hp in Hq, Hc. simpl in Hq, Hc. split; [exact Hq|].
  pose proof (probe_spec task appId regions 0 found asked Hp) as Hs.
  destruct found as [[appInfo regionUsed]|].
  - destruct Hs as (k & Hk & Hhit & Hmiss & Hasked).
    exists k. repeat split; try done.
    destruct Hc as (sh0 & Hsh' & _ & Hlogs & _).
    rewrite Hsh', <- Hlogs.
    apply record_observation_cases.
  - destruct Hs as [Hmiss Hasked]. destruct Hc as (Hlogs & Hmd & Hposted).
    repeat split; try done. by rewrite Hlogs.
Qed.

(** C1 (amended).  The decision table of the classifier, keyed on the
    stored version: with no usable stored version (no record, or a record
    with an empty version) the observation is FirstSeen, the entry is
    written and the added-to-monitoring notification is posted; with a
    stored version, a greater observed version is Updated, with entry
    written and update notification posted; a smaller one is
    StaleOrRegressed and an equal one Unchanged, both leaving table and
    notifications as they were. *)
Theorem decision_table
    (appId : jsstring) (appInfo : AppInfo.t) (regionUsed : jsstring)
    (sh : Shared) :
  let sh' := record_observation appId appInfo regionUsed sh in
  let md := monitoredData sh in
  let appName := AppInfo.trackName appInfo in
  let newVersion := AppInfo.version appInfo in
  let date := AppInfo.currentVersionReleaseDate appInfo in
  let url := openUrl regionUsed appId in
  (no_stored_version md appId →
     classified FirstSeen (logs sh) (logs sh')
     ∧ monitoredData sh' = <[appId := entry_of appInfo regionUsed]> md
     ∧ posted sh' = posted sh ++
         [AddedToMonitoring appName regionUsed newVersion date url])
  ∧ (∀ r, md !! appId = Some r → AppRecord.version r ≠ [] →
       let storedVersion := AppRecord.version r in
       (compareVersions newVersion storedVersion > 0 →
          classified Updated (logs sh) (logs sh')
          ∧ monitoredData sh' = <[appId := entry_of appInfo regionUsed]> md
          ∧ ∃ notes, posted sh' = posted sh ++
              [UpdateAvailable appName regionUsed storedVersion newVersion
                 date notes url])
       ∧ (compareVersions newVersion storedVersion < 0 →
            classified StaleOrRegressed (logs sh) (logs sh')
            ∧ monitoredData sh' = md
            ∧ posted sh' = posted sh)
       ∧ (compareVersions newVersion storedVersion = 0 →
            classified Unchanged (logs sh) (logs sh')
            ∧ monitoredData sh' = md
            ∧ posted sh' = posted sh)).
Proof.
  intros sh' md appName newVersion date url.
  pose proof (record_observation_cases appId appInfo regionUsed sh)
    as (_ & _ & Hc).
  fold sh' md appName newVersion date url in Hc.
  split.
  - intros Hno. apply storedVersion_of_None in Hno.
    fold md in Hno. rewrite Hno in Hc. destruct Hc as (Hl & Hm & Hp).
    repeat split; try done.
    eexists. split; [|exact Hl]. done.
  - intros r Hr Hv storedVersion.
    rewrite (storedVersion_of_Some md appId r Hr Hv) in Hc.
    fold storedVersion in Hc.
    destruct (Z.gtb_spec (compareVersions newVersion storedVersion) 0)
      as [Hgt|Hle].
    + destruct Hc as (Hl & Hm & Hp).
      split; [|split; intros; lia]. intros _.
      repeat split; try done.
      eexists. split; [|exact Hl]. done.
    + destruct Hc as (Hl & Hm & Hp).
      split; [intros; lia|].
      destruct (Z.ltb_spec (compareVersions newVersion storedVersion) 0)
        as [Hlt|Hge].
      * split; [|intros; lia]. intros _. repeat split; try done.
        eexists. split; [|exact Hl]. done.
      * split; [intros; lia|]. intros _. repeat split; try done.
        eexists. split; [|exact Hl]. done.
Qed.

(** C2 (amended).  A task changes the table entry of an identifier only
    if it is the task's own identifier, a region answered, and either
    there was no usable stored version (no record, or a record with an
    empty version) or the observed version compares strictly greater than
    the stored one; the entry then holds the observed version.  When the
    stored version is not empty and the observed one does not compare
    greater, the table is left as it was. *)
Theorem version_overwrite_rule (task : nat) (appId : jsstring)
    (regions : list jsstring) (sh : Shared) :
  let sh' := checkApp task appId regions sh in
  let md := monitoredData sh in
  (∀ id, monitoredData sh' !! id ≠ md !! id →
     id = appId
     ∧ ∃ appInfo regionUsed,
         (resolve task 0 appId regions).1 = Some (appInfo, regionUsed)
         ∧ monitoredData sh' !! id = Some (entry_of appInfo regionUsed)
         ∧ (no_stored_version md id
            ∨ ∃ r, md !! id = Some r
                ∧ compareVersions (AppInfo.version appInfo)
                    (AppRecord.version r) > 0))
  ∧ (∀ appInfo regionUsed r,
       (resolve task 0 appId regions).1 = Some (appInfo, regionUsed) →
       md !! appId = Some r → AppRecord.version r ≠ [] →
       compareVersions (AppInfo.version appInfo) (AppRecord.version r) ≤ 0 →
       monitoredData sh' = md).
Proof.
  intros sh' md.
  pose proof (checkAppUpdate_cases task appId regions sh) as [_ Hc].
  fold sh' in Hc.
  destruct ((resolve task 0 appId regions).1) as [[appInfo regionUsed]|];
    [|destruct Hc as (_ & Hm & _); split; [intros id; by rewrite Hm|done]].
  destruct Hc as (sh0 & Hsh' & Hmd0 & _).
  pose proof (record_observation_cases appId appInfo regionUsed sh0)
    as (_ & _ & Hr).
  rewrite <- Hsh', Hmd0 in Hr. fold md in Hr.
  split.
  - intros id Hne.
    destruct (storedVersion_of md appId) as [sv|] eqn:Hsv.
    + destruct (Z.gtb_spec (compareVersions (AppInfo.version appInfo) sv) 0)
        as [Hgt|Hle]; destruct Hr as (_ & Hm & _);
        [|by rewrite Hm in Hne].
      rewrite Hm in Hne |- *.
      destruct (decide (appId = id)) as [<-|Hid];
        [|by rewrite lookup_insert_ne in Hne].
      split; [done|]. exists appInfo, regionUsed.
      rewrite lookup_insert_eq. repeat split; try done.
      right. unfold storedVersion_of in Hsv.
      destruct (md !! appId) as [r|]; [|done].
      exists r. split; [done|].
      destruct (truthy (AppRecord.version r)); [|done].
      injection Hsv as <-. lia.
    + destruct Hr as (_ & Hm & _). rewrite Hm in Hne |- *.
      destruct (decide (appId = id)) as [<-|Hid];
        [|by rewrite lookup_insert_ne in Hne].
      split; [done|]. exists appInfo, regionUsed.
      rewrite lookup_insert_eq. repeat split; try done.
      left. by apply storedVersion_of_None.
  - intros appInfo' regionUsed' r [= <- <-] Hrec Hv Hle.
    rewrite (storedVersion_of_Some md appId r Hrec Hv) in Hr.
    destruct (Z.gtb_spec (compareVersions (AppInfo.version appInfo)
                            (AppRecord.version r)) 0); [lia|].
    by destruct Hr as (_ & Hm & _).
Qed.

End Task.

(** * Properties of a run *)

Section Run.

Variable JSON_parse_table : jsstring → option (gmap jsstring AppRecord.t).
Variable JSON_stringify : gmap jsstring AppRecord.t → jsstring.
Variable JSON_parse_lookup : jsstring → option LookupJson.
Variable toLowerCase : jsstring → jsstring.
Variable httpGet : nat → nat → jsstring → jsstring → HttpReply.
Variable completion : list nat.

Abbreviation resolve := (probe JSON_parse_lookup httpGet).
Abbreviation checkApp := (checkAppUpdate JSON_parse_lookup httpGet).
Abbreviation tasks := (run_tasks JSON_parse_lookup httpGet).
Abbreviation run :=
  (main JSON_parse_table JSON_stringify JSON_parse_lookup toLowerCase httpGet
     completion).

Lemma has_stored_data_negb (storedData : option jsstring) :
  has_stored_data storedData = negb (no_stored_data storedData).
Proof.
  unfold has_stored_data, no_stored_data.
  destruct (truthy_opt storedData); simpl; [|done].
  by rewrite negb_orb.
Qed.

Lemma newIds_of_truthy (appStoreIds : option jsstring) :
  newIds_of appStoreIds ≠ [] → truthy_opt appStoreIds = true.
Proof.
  destruct appStoreIds as [ids|]; simpl; [|done]. by destruct (truthy ids).
Qed.

Lemma handleDeletions_empty (newIds : list jsstring) :
  handleDeletions newIds ∅ = (∅, []).
Proof. unfold handleDeletions. by rewrite map_to_list_empty. Qed.

(** The run on the active path. *)
Lemma main_active (store : Store) :
  let newIds := newIds_of (AppStore_AppID store) in
  let regions := regions_of toLowerCase (AppStore_Region store) in
  let del :=
    handleDeletions newIds
      (load_table JSON_parse_table (AppStore_Monitored_Apps store)) in
  let sh := tasks newIds regions completion (fresh del.1) in
  newIds ≠ [] →
  run store =
    {| written := [JSON_stringify (monitoredData sh)];
       notifications := posted sh; removed := del.2;
       buckets := logs sh; requests := queried sh;
       table := monitoredData sh |}.
Proof.
  intros newIds regions del sh Hne. subst newIds regions del sh. unfold main.
  rewrite (newIds_of_truthy _ Hne). cbn [negb andb].
  destruct (Nat.eqb_spec (length (newIds_of (AppStore_AppID store))) 0)
    as [H0|_]; [by destruct (newIds_of _)|].
  by destruct (handleDeletions _ _).
Qed.

Lemma no_stored_data_spec (storedData : option jsstring) :
  no_stored_data storedData = true
  ↔ storedData = None
    ∨ storedData = Some (of_string "{}")
    ∨ storedData = Some [].
Proof.
  unfold no_stored_data.
  rewrite !orb_true_iff, !bool_decide_eq_true, negb_true_iff.
  split.
  - intros [ [Ht | Ho] | He]; [ | tauto | tauto].
    destruct storedData as [[|c b]|]; simpl in Ht; [tauto|done|tauto].
  - intros [-> | [-> | ->]]; [by left; left|by left; right|by right].
Qed.

(** C7.  With no tracked-id configuration (the key absent or empty) and the
    stored state absent, the empty object or the empty string, the run posts
    the one configuration-needed notification and writes nothing. *)
Theorem unconfigured_run (store : Store) :
  (AppStore_AppID store = None ∨ AppStore_AppID store = Some []) →
  (AppStore_Monitored_Apps store = None
   ∨ AppStore_Monitored_Apps store = Some (of_string "{}")
   ∨ AppStore_Monitored_Apps store = Some []) →
  notifications (run store) = [NotConfigured]
  ∧ written (run store) = []
  ∧ requests (run store) = []
  ∧ store_after store (run store) = store.
Proof.
  intros Hids Hdata. apply no_stored_data_spec in Hdata.
  assert (Ht : truthy_opt (AppStore_AppID store) = false)
    by (by destruct Hids as [-> | ->]).
  unfold main. rewrite Ht, Hdata. simpl.
  repeat split. by destruct store.
Qed.

(** C8.  When the tracked-id configuration resolves to no identifier: if
    the stored state is not empty, the run writes the empty string over it,
    posts no notification and sends no request; if the stored state is
    already empty, the run writes nothing. *)
Theorem empty_tracked_set (store : Store) :
  newIds_of (AppStore_AppID store) = [] →
  (∀ blob, AppStore_Monitored_Apps store = Some blob →
     blob ≠ [] → blob ≠ of_string "{}" →
     written (run store) = [[]]
     ∧ AppStore_Monitored_Apps (store_after store (run store)) = Some []
     ∧ notifications (run store) = []
     ∧ requests (run store) = [])
  ∧ (AppStore_Monitored_Apps store = None
     ∨ AppStore_Monitored_Apps store = Some (of_string "{}")
     ∨ AppStore_Monitored_Apps store = Some [] →
     written (run store) = []
     ∧ store_after store (run store) = store).
Proof.
  intros Hids. split.
  - intros blob Hblob Hne Hobj.
    assert (Hno : no_stored_data (AppStore_Monitored_Apps store) = false).
    { apply not_true_is_false. rewrite no_stored_data_spec, Hblob.
      intros [?|[?|?]]; congruence. }
    unfold main, store_after.
    rewrite has_stored_data_negb, Hno, andb_false_r, Hids. done.
  - intros Hdata. apply no_stored_data_spec in Hdata.
    unfold main, store_after.
    rewrite has_stored_data_negb, Hdata, andb_true_r, Hids.
    destruct (negb _); simpl; by destruct store.
Qed.

(** ** The tasks of a run *)

Lemma run_tasks_cons (newIds regions : list jsstring) (task : nat)
    (order : list nat) (sh : Shared) :
  tasks newIds regions (task :: order) sh =
  tasks newIds regions order
    (match newIds !! task with
     | Some appId => checkApp task appId regions sh
     | None => sh
     end).
Proof. done. Qed.

(** Every task leaves one record of the requests it sent. *)
Lemma run_tasks_queried (newIds regions : list jsstring) (order : list nat) :
  ∀ sh,
    queried (tasks newIds regions order sh) =
    queried sh ++
      omap (λ task,
              (λ appId, (task, appId, (resolve task 0 appId regions).2))
                <$> newIds !! task) order.
Proof.
  induction order as [|task order IH]; intros sh.
  - simpl. by rewrite app_nil_r.
  - rewrite run_tasks_cons, IH. csimpl.
    destruct (newIds !! task) as [appId|]; simpl; [|done].
    pose proof (checkAppUpdate_cases JSON_parse_lookup httpGet
                  task appId regions sh) as [-> _].
    by rewrite <- app_assoc.
Qed.

Lemma omap_lookup_seq {A B : Type} (l : list A) :
  ∀ g : nat → A → B,
    omap (λ j : nat, g j <$> l !! j) (seq 0 (length l)) = imap g l.
Proof.
  induction l as [|x l IH]; intros g; [done|].
  simpl length. rewrite <- cons_seq, <- fmap_S_seq. csimpl. f_equal.
  rewrite <- (IH (g ∘ S)).
  generalize (seq 0 (length l)). intros js.
  induction js as [|j js IHjs]; [done|]. csimpl.
  destruct (l !! j); simpl; by rewrite IHjs.
Qed.

(** What one task does to the first-seen bucket and to the table. *)
Lemma check_first_seen (task : nat) (appId : jsstring)
    (regions : list jsstring) (sh : Shared) :
  let sh' := checkApp task appId regions sh in
  (∀ id, first_seen (logs sh) id → first_seen (logs sh') id)
  ∧ (∀ id, is_Some (monitoredData sh !! id) →
           is_Some (monitoredData sh' !! id))
  ∧ (∀ id, is_Some (monitoredData sh' !! id) →
           is_Some (monitoredData sh !! id) ∨ first_seen (logs sh') id)
  ∧ (is_Some (resolve task 0 appId regions).1 →
     is_Some (monitoredData sh' !! appId)).
Proof.
  intros sh'.
  pose proof (checkAppUpdate_cases JSON_parse_lookup httpGet
                task appId regions sh) as [_ Hc].
  fold sh' in Hc.
  destruct ((resolve task 0 appId regions).1) as [[appInfo regionUsed]|].
  - destruct Hc as (sh0 & Hsh' & Hmd & Hlogs & _).
    pose proof (record_observation_cases appId appInfo regionUsed sh0)
      as (_ & _ & Hr).
    rewrite <- Hsh', Hmd, Hlogs in Hr.
    assert (Hins : ∀ e id,
      is_Some (monitoredData sh !! id) →
      is_Some (<[appId := e]> (monitoredData sh) !! id)).
    { intros e id Hid. destruct (decide (appId = id)) as [<-|Hne].
      - rewrite lookup_insert_eq. eauto.
      - by rewrite lookup_insert_ne. }
    destruct (storedVersion_of (monitoredData sh) appId) as [sv|] eqn:Hsv.
    + assert (Hrec : is_Some (monitoredData sh !! appId)).
      { unfold storedVersion_of in Hsv.
        destruct (monitoredData sh !! appId); [eauto|done]. }
      destruct (compareVersions _ sv >? 0).
      * destruct Hr as (Hl & Hm & _). rewrite Hl, Hm.
        split; [|split; [|split]]; [done|apply Hins| |by intros _; apply Hins].
        intros id. destruct (decide (appId = id)) as [<-|Hne]; [by left|].
        rewrite lookup_insert_ne by done. by left.
      * destruct Hr as (Hl & Hm & _). rewrite Hl, Hm.
        split; [|split; [|split]]; [done|done|by left|done].
    + destruct Hr as (Hl & Hm & _). rewrite Hl, Hm.
      assert (Hnew : first_seen
        (push_initial
           (LogInitial regionUsed (AppInfo.trackName appInfo) appId
              (AppInfo.version appInfo)) (logs sh)) appId).
      { do 3 eexists. simpl. apply elem_of_app. right.
        by apply list_elem_of_singleton. }
      split; [|split; [|split]].
      * intros id (r & n & v & Hin). exists r, n, v. simpl.
        apply elem_of_app. by left.
      * apply Hins.
      * intros id. destruct (decide (appId = id)) as [<-|Hne]; [by right|].
        rewrite lookup_insert_ne by done. by left.
      * intros _. rewrite lookup_insert_eq. eauto.
  - destruct Hc as (Hl & Hm & _). rewrite Hl, Hm.
    split; [|split; [|split]]; [done|done|by left|by intros [? ?]].
Qed.

(** Started from a table in which every identifier with a record is in the
    first-seen bucket, the tasks keep it so, and every task that resolves
    its identifier leaves a record for it. *)
Lemma run_tasks_first_seen (newIds regions : list jsstring)
    (order : list nat) :
  ∀ sh,
    (∀ id, is_Some (monitoredData sh !! id) → first_seen (logs sh) id) →
    let sh' := tasks newIds regions order sh in
    (∀ id, is_Some (monitoredData sh' !! id) → first_seen (logs sh') id)
    ∧ (∀ id, is_Some (monitoredData sh !! id) →
             is_Some (monitoredData sh' !! id))
    ∧ (∀ task appId, task ∈ order → newIds !! task = Some appId →
         is_Some (resolve task 0 appId regions).1 →
         is_Some (monitoredData sh' !! appId)).
Proof.
  induction order as [|task order IH]; intros sh Hinv.
  - simpl. split; [|split]; [done|done|]. intros task appId Hin.
    by apply elem_of_nil in Hin.
  - intros sh'. subst sh'. rewrite run_tasks_cons.
    set (sh1 := match newIds !! task with
                | Some appId => checkApp task appId regions sh
                | None => sh
                end).
    assert (Hstep :
      (∀ id, is_Some (monitoredData sh1 !! id) → first_seen (logs sh1) id)
      ∧ (∀ id, is_Some (monitoredData sh !! id) →
               is_Some (monitoredData sh1 !! id))
      ∧ (∀ appId, newIds !! task = Some appId →
           is_Some (resolve task 0 appId regions).1 →
           is_Some (monitoredData sh1 !! appId))).
    { subst sh1. destruct (newIds !! task) as [appId|]; [|done].
      pose proof (check_first_seen task appId regions sh)
        as (Hmono & Hdom & Hnew & Hfound).
      split; [|split]; [|done|by intros ? [= <-]].
      intros id Hid. destruct (Hnew id Hid) as [Hold|Hfs]; [|done].
      by apply Hmono, Hinv. }
    destruct Hstep as (Hinv1 & Hdom1 & Hfound1).
    destruct (IH sh1 Hinv1) as (Hinv' & Hdom' & Hfound').
    split; [|split]; [done|by intros id Hid; apply Hdom', Hdom1|].
    intros t appId [->|Hin]%elem_of_cons Ht Hres.
    + by apply Hdom', Hfound1.
    + by apply (Hfound' t).
Qed.

(** With pairwise distinct identifiers and no task counted twice, no task
    finds a record of its identifier unless an earlier task is to account
    for it: nothing reaches the updated and no-update buckets. *)
Lemma run_tasks_distinct (newIds regions : list jsstring) :
  NoDup newIds →
  ∀ (order processed : list nat) sh,
    NoDup (processed ++ order) →
    (∀ id, is_Some (monitoredData sh !! id) →
       ∃ t, t ∈ processed ∧ newIds !! t = Some id) →
    let sh' := tasks newIds regions order sh in
    updated (logs sh') = updated (logs sh)
    ∧ noUpdate (logs sh') = noUpdate (logs sh).
Proof.
  intros Hids. induction order as [|task order IH];
    intros processed sh Hnd Hdom; [done|].
  intros sh'. subst sh'. rewrite run_tasks_cons.
  set (sh1 := match newIds !! task with
              | Some appId => checkApp task appId regions sh
              | None => sh
              end).
  assert (Hfresh : task ∉ processed).
  { apply NoDup_app in Hnd as (_ & Hnot & _). intros Hin.
    apply (Hnot task Hin). by left. }
  assert (Hstep :
    updated (logs sh1) = updated (logs sh)
    ∧ noUpdate (logs sh1) = noUpdate (logs sh)
    ∧ ∀ id, is_Some (monitoredData sh1 !! id) →
        ∃ t, t ∈ processed ++ [task] ∧ newIds !! t = Some id).
  { assert (Hweak : ∀ id, is_Some (monitoredData sh !! id) →
       ∃ t, t ∈ processed ++ [task] ∧ newIds !! t = Some id).
    { intros id Hid. destruct (Hdom id Hid) as (t & Ht & Hl).
      exists t. split; [|done]. apply elem_of_app. by left. }
    subst sh1. destruct (newIds !! task) as [appId|] eqn:Htask; [|done].
    assert (Hnone : storedVersion_of (monitoredData sh) appId = None).
    { unfold storedVersion_of.
      destruct (monitoredData sh !! appId) as [r|] eqn:Hr; [|done].
      destruct (Hdom appId) as (t & Ht & Hl); [by eauto|].
      by rewrite (NoDup_lookup newIds t task appId Hids Hl Htask) in Ht. }
    pose proof (checkAppUpdate_cases JSON_parse_lookup httpGet
                  task appId regions sh) as [_ Hc].
    destruct ((resolve task 0 appId regions).1) as [[appInfo regionUsed]|].
    - destruct Hc as (sh0 & Hsh' & Hmd & Hlogs & _).
      pose proof (record_observation_cases appId appInfo regionUsed sh0)
        as (_ & _ & Hr).
      rewrite <- Hsh', Hmd, Hlogs, Hnone in Hr.
      destruct Hr as (Hl & Hm & _). rewrite Hl, Hm.
      split; [done|split; [done|]].
      intros id. destruct (decide (appId = id)) as [<-|Hne].
      + intros _. exists task. split; [|done].
        apply elem_of_app. right. by apply list_elem_of_singleton.
      + rewrite lookup_insert_ne by done. apply Hweak.
    - destruct Hc as (Hl & Hm & _). rewrite Hl, Hm. done. }
  destruct Hstep as (Hu & Hn & Hdom1).
  rewrite <- Hu, <- Hn.
  apply (IH (processed ++ [task])); [|done].
  by rewrite <- app_assoc.
Qed.

(** C9.  When the stored blob does not parse, the run goes on from the
    empty table: nothing is removed, the tasks start on the empty table and
    their result is written; every identifier that some task resolves has a
    line in the first-seen bucket; and, with pairwise distinct identifiers,
    no observation of the run is of another class. *)
Theorem malformed_state_first_seen (store : Store) (blob : jsstring) :
  let newIds := newIds_of (AppStore_AppID store) in
  let regions := regions_of toLowerCase (AppStore_Region store) in
  AppStore_Monitored_Apps store = Some blob →
  blob ≠ [] →
  JSON_parse_table blob = None →
  newIds ≠ [] →
  removed (run store) = []
  ∧ table (run store) =
      monitoredData (tasks newIds regions completion (fresh ∅))
  ∧ written (run store) = [JSON_stringify (table (run store))]
  ∧ (∀ task appId appInfo regionUsed,
       task ∈ completion → newIds !! task = Some appId →
       (resolve task 0 appId regions).1 = Some (appInfo, regionUsed) →
       first_seen (buckets (run store)) appId)
  ∧ (NoDup newIds → NoDup completion →
       updated (buckets (run store)) = []
       ∧ noUpdate (buckets (run store)) = []).
Proof.
  intros newIds regions Hblob Hne Hparse Hids.
  assert (Hload : load_table JSON_parse_table (AppStore_Monitored_Apps store)
                  = ∅).
  { unfold load_table. rewrite Hblob, Hparse. by destruct (truthy blob). }
  rewrite (main_active store Hids). fold newIds regions.
  rewrite Hload, handleDeletions_empty. simpl.
  split; [done|split; [done|split; [done|split]]].
  - intros task appId appInfo regionUsed Hin Htask Hres.
    destruct (run_tasks_first_seen newIds regions completion (fresh ∅))
      as (Hinv & _ & Hfound).
    { intros id. simpl. rewrite lookup_empty. by intros [? ?]. }
    apply Hinv, (Hfound task); [done|done|]. rewrite Hres. eauto.
  - intros Hnd Hnc.
    apply (run_tasks_distinct newIds regions Hnd completion [] (fresh ∅));
      [done|].
    intros id. simpl. rewrite lookup_empty. by intros [? ?].
Qed.

(** The identifiers equal to [id] among the tracked ones are as many as the
    comma-separated pieces that trim to [id]. *)
Lemma newIds_occurrences (ids id : jsstring) :
  id ≠ [] →
  length (filter (λ x, x = id) (newIds_of (Some ids))) =
  length (filter (λ piece, trim piece = id) (split 44 ids)).
Proof.
  intros Hid. unfold newIds_of.
  destruct (truthy ids) eqn:Ht.
  - induction (split 44 ids) as [|piece pieces IH]; [done|].
    rewrite (filter_cons (λ piece, trim piece = id)). simpl.
    destruct (truthy (trim piece)) eqn:Hp.
    + rewrite filter_cons.
      destruct (decide (trim piece = id)); simpl; by rewrite IH.
    + destruct (decide (trim piece = id)) as [He|]; [|done].
      rewrite He in Hp. by destruct id.
  - destruct ids as [|c r]; [|done]. simpl split.
    rewrite filter_cons.
    destruct (decide (trim [] = id)) as [He|]; [|done].
    by rewrite <- He in Hid.
Qed.

Lemma requests_of_id (id : jsstring) (l : list jsstring) :
  ∀ f : nat → jsstring → nat * jsstring * list jsstring,
    (∀ i x, (f i x).1.2 = x) →
    length (filter (λ q : nat * jsstring * list jsstring, q.1.2 = id)
              (imap f l)) =
    length (filter (λ x, x = id) l).
Proof.
  induction l as [|x l IH]; intros f Hf; [done|].
  rewrite imap_cons, !filter_cons, Hf.
  destruct (decide (x = id)); simpl; rewrite IH; try done;
    intros i y; apply Hf.
Qed.

(** C10.  The tracked identifiers are not deduplicated: the run has one
    task per entry of the parsed list, each with its own sequence of region
    requests, so an identifier written several times in the configuration is
    probed once per occurrence. *)
Theorem one_task_per_occurrence (store : Store) :
  let newIds := newIds_of (AppStore_AppID store) in
  let regions := regions_of toLowerCase (AppStore_Region store) in
  newIds ≠ [] →
  completion ≡ₚ seq 0 (length newIds) →
  requests (run store) ≡ₚ
    imap (λ task appId, (task, appId, (resolve task 0 appId regions).2)) newIds
  ∧ (∀ q, q ∈ requests (run store) → q.2 ≠ [])
  ∧ ∀ ids id, AppStore_AppID store = Some ids → id ≠ [] →
      length (filter (λ q, q.1.2 = id) (requests (run store))) =
      length (filter (λ piece, trim piece = id) (split 44 ids)).
Proof.
  intros newIds regions Hids Hperm.
  rewrite (main_active store Hids). fold newIds regions. simpl.
  rewrite run_tasks_queried. simpl.
  assert (Hreq :
    omap (λ task,
            (λ appId, (task, appId, (resolve task 0 appId regions).2))
              <$> newIds !! task) completion
    ≡ₚ imap (λ task appId, (task, appId, (resolve task 0 appId regions).2))
         newIds).
  { rewrite Hperm. by rewrite omap_lookup_seq. }
  split; [done|split].
  - intros q Hq. rewrite Hreq in Hq.
    apply list_elem_of_lookup in Hq as [i Hq].
    rewrite list_lookup_imap in Hq.
    destruct (newIds !! i) as [appId|]; [|done].
    injection Hq as <-. simpl.
    assert (Hreg : regions ≠ []).
    { subst regions. unfold regions_of, defaultRegions.
      destruct (AppStore_Region store) as [raw|]; [|done].
      destruct (truthy raw); [|done].
      destruct (List.filter _ _); done. }
    destruct regions as [|region rest]; [done|]. simpl.
    destruct (lookupApp _ _ _ _ _ _); [done|].
    by destruct (resolve _ _ _ _).
  - intros ids id Hcfg Hid. rewrite Hreq.
    rewrite <- (newIds_occurrences ids id Hid), <- Hcfg. fold newIds.
    by apply requests_of_id.
Qed.

End Run.

(** * Worked runs *)

(** With the region order us, cn, the failing us probe is followed by the
    cn probe, which answers: two requests, the result attributed to cn. *)
Lemma region_resolution_witness :
  queried (checkAppUpdate Demo.parse_lookup (Demo.http (of_string "6.8(12)"))
             0 Demo.id1 [Demo.us; Demo.cn] (fresh ∅))
  = [(0%nat, Demo.id1, [Demo.us; Demo.cn])]
  ∧ ∃ k : nat, [Demo.us; Demo.cn] !! k = Some Demo.cn.
Proof.
  pose proof
    (region_resolution Demo.parse_lookup (Demo.http (of_string "6.8(12)"))
       0 Demo.id1 [Demo.us; Demo.cn] (fresh ∅)
       (Some (Demo.app (of_string "6.8(12)"), Demo.cn))
       [Demo.us; Demo.cn] eq_refl) as (_ & Hq & k & Hk & _).
  split; [exact Hq|]. exists k. exact Hk.
Defined.

(** Stored 6.8(5), observed 6.8(12): Updated, entry written. *)
Lemma decision_table_witness :
  classified Updated no_logs
    (logs (record_observation Demo.id1 (Demo.app (of_string "6.8(12)"))
             Demo.cn (Demo.tracking (of_string "6.8(5)"))))
  ∧ monitoredData
      (record_observation Demo.id1 (Demo.app (of_string "6.8(12)"))
         Demo.cn (Demo.tracking (of_string "6.8(5)")))
    = <[Demo.id1 := entry_of (Demo.app (of_string "6.8(12)")) Demo.cn]>
        {[ Demo.id1 := Demo.stored (of_string "6.8(5)") ]}.
Proof.
  pose proof
    (decision_table Demo.id1 (Demo.app (of_string "6.8(12)")) Demo.cn
       (Demo.tracking (of_string "6.8(5)"))) as [_ Hrows].
  destruct (Hrows (Demo.stored (of_string "6.8(5)")))
    as ((Hc & Hm & _) & _).
  - apply lookup_singleton_eq.
  - discriminate.
  - vm_compute. reflexivity.
  - split; [exact Hc|exact Hm].
Defined.

(** C1, as stated, fails: a record exists for the identifier, its version is
    the empty string, and the observed version 0 compares equal to it; the
    observation is nevertheless logged as first seen, the entry is written
    and a notification is posted. *)
Lemma decision_table_empty_stored_version :
  let sh := Demo.tracking [] in
  let sh' := record_observation Demo.id1 (Demo.app (of_string "0")) Demo.cn sh in
  monitoredData sh !! Demo.id1 = Some (Demo.stored [])
  ∧ compareVersions (of_string "0") (AppRecord.version (Demo.stored [])) = 0
  ∧ classified FirstSeen (logs sh) (logs sh')
  ∧ ¬ classified Unchanged (logs sh) (logs sh')
  ∧ monitoredData sh' ≠ monitoredData sh
  ∧ posted sh' ≠ posted sh.
Proof.
  intros sh sh'.
  pose proof (record_observation_cases Demo.id1 (Demo.app (of_string "0"))
                Demo.cn sh) as (_ & _ & Hc).
  assert (Hl : monitoredData sh !! Demo.id1 = Some (Demo.stored []))
    by apply lookup_singleton_eq.
  unfold storedVersion_of in Hc. rewrite Hl in Hc. simpl in Hc.
  destruct Hc as (Hlogs & Hmd & Hposted). fold sh' in Hlogs, Hmd, Hposted.
  split; [exact Hl|]. split; [by vm_compute|].
  split; [eexists; split; [|exact Hlogs]; done|].
  split.
  - intros (line & _ & Hu). rewrite Hlogs in Hu.
    apply (f_equal initial) in Hu. simpl in Hu. discriminate.
  - split.
    + rewrite Hmd. intros Heq.
      apply (f_equal (λ m : gmap jsstring AppRecord.t, m !! Demo.id1)) in Heq.
      rewrite lookup_insert_eq, Hl in Heq. discriminate.
    + rewrite Hposted. simpl. discriminate.
Qed.

(** Stored 6.8(12), observed 6.8(5), which compares smaller: the table is
    left as it was. *)
Lemma version_overwrite_rule_witness :
  monitoredData
    (checkAppUpdate Demo.parse_lookup (Demo.http (of_string "6.8(5)"))
       0 Demo.id1 [Demo.us; Demo.cn] (Demo.tracking (of_string "6.8(12)")))
  = {[ Demo.id1 := Demo.stored (of_string "6.8(12)") ]}.
Proof.
  pose proof
    (version_overwrite_rule Demo.parse_lookup
       (Demo.http (of_string "6.8(5)")) 0 Demo.id1 [Demo.us; Demo.cn]
       (Demo.tracking (of_string "6.8(12)"))) as [_ Hkeep].
  apply (Hkeep (Demo.app (of_string "6.8(5)")) Demo.cn
           (Demo.stored (of_string "6.8(12)"))).
  - reflexivity.
  - apply lookup_singleton_eq.
  - discriminate.
  - vm_compute. discriminate.
Defined.

(** C2, as stated, fails: a record exists, the observed version 0.0 compares
    equal to its empty version, not strictly greater, and the stored version
    is overwritten all the same. *)
Lemma version_overwritten_without_greater :
  let sh := Demo.tracking [] in
  let sh' :=
    checkAppUpdate Demo.parse_lookup (Demo.http (of_string "0.0"))
      0 Demo.id1 [Demo.us; Demo.cn] sh in
  monitoredData sh !! Demo.id1 = Some (Demo.stored [])
  ∧ compareVersions (of_string "0.0") (AppRecord.version (Demo.stored [])) = 0
  ∧ AppRecord.version <$> monitoredData sh' !! Demo.id1
    = Some (of_string "0.0")
  ∧ AppRecord.version <$> monitoredData sh' !! Demo.id1
    ≠ AppRecord.version <$> monitoredData sh !! Demo.id1.
Proof.
  intros sh sh'.
  assert (Hl : monitoredData sh !! Demo.id1 = Some (Demo.stored []))
    by apply lookup_singleton_eq.
  assert (Hm : monitoredData sh' =
               <[Demo.id1 := entry_of (Demo.app (of_string "0.0")) Demo.cn]>
                 (monitoredData sh)).
  { pose proof (checkAppUpdate_cases Demo.parse_lookup
                  (Demo.http (of_string "0.0")) 0 Demo.id1
                  [Demo.us; Demo.cn] sh) as [_ Hc].
    change ((probe Demo.parse_lookup (Demo.http (of_string "0.0")) 0 0
               Demo.id1 [Demo.us; Demo.cn]).1)
      with (Some (Demo.app (of_string "0.0"), Demo.cn)) in Hc.
    destruct Hc as (sh0 & Hsh' & Hmd0 & _). fold sh' in Hsh'.
    pose proof (record_observation_cases Demo.id1
                  (Demo.app (of_string "0.0")) Demo.cn sh0) as (_ & _ & Hr).
    rewrite <- Hsh', Hmd0 in Hr.
    unfold storedVersion_of in Hr. rewrite Hl in Hr. simpl in Hr.
    by destruct Hr as (_ & Hr & _). }
  split; [exact Hl|]. split; [by vm_compute|].
  rewrite Hm, lookup_insert_eq, Hl. split; [done|]. simpl. discriminate.
Qed.

Lemma unconfigured_run_witness :
  notifications
    (main Demo.parse_table Demo.stringify Demo.parse_lookup Demo.lower
       (Demo.http []) [] (Demo.store None (Some (of_string "{}"))))
  = [NotConfigured]
  ∧ written
      (main Demo.parse_table Demo.stringify Demo.parse_lookup Demo.lower
         (Demo.http []) [] (Demo.store None (Some (of_string "{}"))))
    = [].
Proof.
  pose proof
    (unconfigured_run Demo.parse_table Demo.stringify Demo.parse_lookup
       Demo.lower (Demo.http []) []
       (Demo.store None (Some (of_string "{}")))
       (or_introl eq_refl) (or_intror (or_introl eq_refl)))
    as (Hn & Hw & _).
  split; [exact Hn|exact Hw].
Defined.

(** The configuration [" , "] resolves to no identifier; the stored blob is
    overwritten with the empty string and nothing is posted. *)
Lemma empty_tracked_set_witness :
  written
    (main Demo.parse_table Demo.stringify Demo.parse_lookup Demo.lower
       (Demo.http []) []
       (Demo.store (Some (of_string " , ")) (Some (of_string "{1}"))))
  = [[]]
  ∧ notifications
      (main Demo.parse_table Demo.stringify Demo.parse_lookup Demo.lower
         (Demo.http []) []
         (Demo.store (Some (of_string " , ")) (Some (of_string "{1}"))))
    = [].
Proof.
  pose proof
    (empty_tracked_set Demo.parse_table Demo.stringify Demo.parse_lookup
       Demo.lower (Demo.http []) []
       (Demo.store (Some (of_string " , ")) (Some (of_string "{1}"))))
    as Hthm.
  destruct Hthm as [Herase _]; [vm_compute; reflexivity|].
  destruct (Herase (of_string "{1}")) as (Hw & _ & Hn & _);
    [reflexivity|discriminate|discriminate|].
  split; [exact Hw|exact Hn].
Defined.

(** One tracked identifier, a stored blob that does not parse: the
    identifier is first seen. *)
Lemma malformed_state_first_seen_witness :
  first_seen
    (buckets
       (main Demo.parse_table Demo.stringify Demo.parse_lookup Demo.lower
          (Demo.http (of_string "6.8")) [0%nat]
          (Demo.store (Some Demo.id1) (Some (of_string "{oops")))))
    Demo.id1.
Proof.
  pose proof
    (malformed_state_first_seen Demo.parse_table Demo.stringify
       Demo.parse_lookup Demo.lower (Demo.http (of_string "6.8")) [0%nat]
       (Demo.store (Some Demo.id1) (Some (of_string "{oops")))
       (of_string "{oops")) as Hthm.
  destruct Hthm as (_ & _ & _ & Hfirst & _);
    [reflexivity|discriminate|reflexivity|vm_compute; discriminate|].
  apply (Hfirst 0%nat Demo.id1 (Demo.app (of_string "6.8")) Demo.cn).
  - by left.
  - reflexivity.
  - reflexivity.
Defined.

(** The configuration ["1,1"] gives two tasks for the one identifier. *)
Lemma one_task_per_occurrence_witness :
  length
    (filter (λ q : nat * jsstring * list jsstring, q.1.2 = Demo.id1)
       (requests
          (main Demo.parse_table Demo.stringify Demo.parse_lookup Demo.lower
             (Demo.http (of_string "6.8")) [1%nat; 0%nat]
             (Demo.store (Some (of_string "1,1")) None))))
  = 2%nat.
Proof.
  pose proof
    (one_task_per_occurrence Demo.parse_table Demo.stringify
       Demo.parse_lookup Demo.lower (Demo.http (of_string "6.8"))
       [1%nat; 0%nat] (Demo.store (Some (of_string "1,1")) None)) as Hthm.
  destruct Hthm as (_ & _ & Hcount).
  - vm_compute. discriminate.
  - vm_compute. apply perm_swap.
  - rewrite (Hcount (of_string "1,1") Demo.id1 eq_refl); [|discriminate].
    vm_compute. reflexivity.
Defined.

(** * Further properties of the comparator *)

Section ComparatorOrder.

Lemma compare_parts_refl (a : list Z) (i n : nat) :
  compare_parts a a i n = None.
Proof.
  revert i. induction n as [|n IH]; intros i; simpl; [done|].
  rewrite Z.gtb_ltb, Z.ltb_irrefl. apply IH.
Qed.

(** Reflexivity: every string, well formed or not, compares equal to
    itself. *)
Theorem compareVersions_refl (v : jsstring) : compareVersions v v = 0.
Proof.
  unfold compareVersions. rewrite compare_parts_refl.
  by rewrite Z.gtb_ltb, Z.ltb_irrefl.
Qed.

(** Past the end of both sequences every round compares 0 with 0. *)
Lemma compare_parts_beyond (a b : list Z) (k : nat) :
  ∀ i : nat, (length a ≤ i)%nat → (length b ≤ i)%nat →
    compare_parts a b i k = None.
Proof.
  induction k as [|k IH]; intros i Ha Hb; simpl; [done|].
  rewrite (lookup_ge_None_2 a i Ha), (lookup_ge_None_2 b i Hb). simpl.
  apply IH; lia.
Qed.

(** More rounds than the longer sequence has positions change nothing. *)
Lemma compare_parts_extend (a b : list Z) (k n : nat) :
  ∀ i : nat, (length a ≤ i + n)%nat → (length b ≤ i + n)%nat →
    compare_parts a b i (n + k) = compare_parts a b i n.
Proof.
  induction n as [|n IH]; intros i Ha Hb.
  - simpl. apply compare_parts_beyond; lia.
  - simpl. destruct (_ >? _); [done|]. destruct (_ <? _); [done|].
    apply IH; lia.
Qed.

Lemma compare_parts_rounds (a b : list Z) (N : nat) :
  (Nat.max (length a) (length b) ≤ N)%nat →
  compare_parts a b 0 (Nat.max (length a) (length b)) = compare_parts a b 0 N.
Proof.
  intros HN.
  replace N with (Nat.max (length a) (length b)
                  + (N - Nat.max (length a) (length b)))%nat by lia.
  symmetry. apply compare_parts_extend; lia.
Qed.

Lemma compare_parts_trans (a b c : list Z) (n : nat) :
  ∀ i : nat,
    not_below (compare_parts a b i n) →
    not_below (compare_parts b c i n) →
    not_below (compare_parts a c i n)
    ∧ (compare_parts a c i n = None →
       compare_parts a b i n = None ∧ compare_parts b c i n = None).
Proof.
  unfold not_below.
  induction n as [|n IH]; intros i; simpl; [by auto|].
  destruct (Z.gtb_spec (or_zero (a !! i)) (or_zero (b !! i)));
    destruct (Z.ltb_spec (or_zero (a !! i)) (or_zero (b !! i)));
    destruct (Z.gtb_spec (or_zero (b !! i)) (or_zero (c !! i)));
    destruct (Z.ltb_spec (or_zero (b !! i)) (or_zero (c !! i)));
    destruct (Z.gtb_spec (or_zero (a !! i)) (or_zero (c !! i)));
    destruct (Z.ltb_spec (or_zero (a !! i)) (or_zero (c !! i)));
    try lia; try (intros [?|?] [?|?]; (done || (split; [by left|done])));
    try (intros _ _; split; [by left|done]);
    try (intros _ [?|?]; (done || (split; [by left|done])));
    try (intros [?|?] _; (done || (split; [by left|done]))).
  apply IH.
Qed.

(** Transitivity of "not older than": the comparator orders versions
    consistently. *)
Theorem compareVersions_trans (a b c : jsstring) :
  0 ≤ compareVersions a b →
  0 ≤ compareVersions b c →
  0 ≤ compareVersions a c.
Proof.
  unfold compareVersions.
  set (pa := parts (parse a)). set (pb := parts (parse b)).
  set (pc := parts (parse c)).
  set (N := Nat.max (length pa) (Nat.max (length pb) (length pc))).
  rewrite (compare_parts_rounds pa pb N), (compare_parts_rounds pb pc N),
    (compare_parts_rounds pa pc N) by lia.
  intros Hab Hbc.
  assert (Hab' : not_below (compare_parts pa pb 0 N)).
  { destruct (compare_parts pa pb 0 N) as [r|] eqn:E; [|by right].
    apply compare_parts_sign in E as [-> | ->]; [by left|lia]. }
  assert (Hbc' : not_below (compare_parts pb pc 0 N)).
  { destruct (compare_parts pb pc 0 N) as [r|] eqn:E; [|by right].
    apply compare_parts_sign in E as [-> | ->]; [by left|lia]. }
  destruct (compare_parts_trans pa pb pc N 0 Hab' Hbc') as [[Hac|Hac] Htie].
  - rewrite Hac. lia.
  - destruct (Htie Hac) as [Eab Ebc]. rewrite Hac. rewrite Eab in Hab.
    rewrite Ebc in Hbc.
    destruct (Z.gtb_spec (build (parse a)) (build (parse b)));
      destruct (Z.ltb_spec (build (parse a)) (build (parse b)));
      destruct (Z.gtb_spec (build (parse b)) (build (parse c)));
      destruct (Z.ltb_spec (build (parse b)) (build (parse c)));
      destruct (Z.gtb_spec (build (parse a)) (build (parse c)));
      destruct (Z.ltb_spec (build (parse a)) (build (parse c))); lia.
Qed.

Lemma compare_parts_pad (a b : list Z) (k n : nat) :
  ∀ i : nat,
    compare_parts (a ++ replicate k 0) b i n = compare_parts a b i n.
Proof.
  assert (Hl : ∀ i : nat, or_zero ((a ++ replicate k 0) !! i) = or_zero (a !! i)).
  { intros i. destruct (decide (i < length a)%nat) as [Hlt|Hge].
    - by rewrite lookup_app_l.
    - rewrite lookup_app_r, (lookup_ge_None_2 a i) by lia.
      destruct (replicate k 0 !! (i - length a)%nat) as [x|] eqn:E; [|done].
      by apply lookup_replicate in E as [-> _]. }
  induction n as [|n IH]; intros i; simpl; [done|].
  by rewrite Hl, IH.
Qed.

(** Trailing zero parts do not matter: a version whose parts are those of
    another followed by zeros, with the same build, compares like it. *)
Theorem trailing_zero_parts_ignored (v v' w : jsstring) (k : nat) :
  parts (parse v') = parts (parse v) ++ replicate k 0 →
  build (parse v') = build (parse v) →
  compareVersions v' w = compareVersions v w.
Proof.
  intros Hp Hb. unfold compareVersions. rewrite Hb, Hp.
  set (pa := parts (parse v)). set (pw := parts (parse w)).
  set (N := Nat.max (length (pa ++ replicate k 0)) (length pw)).
  rewrite (compare_parts_rounds pa pw N).
  - by rewrite compare_parts_pad.
  - subst N. rewrite length_app. lia.
Qed.

End ComparatorOrder.

(** * Further properties of the string functions and of [parse] *)

Section Parsing.

Lemma is_digit_plain (c : N) :
  is_digit c = true → is_whitespace c = false ∧ c ≠ 45%N ∧ c ≠ 43%N.
Proof.
  unfold is_digit, is_whitespace, is_line_terminator.
  intros [H1 H2]%andb_true_iff. apply N.leb_le in H1, H2.
  repeat match goal with
         | |- context [N.eqb c ?k] => destruct (N.eqb_spec c k); [lia|]
         end.
  destruct (N.leb_spec 8192 c); [lia|]. simpl. split; [done|lia].
Qed.

Lemma drop_while_stop (p : N → bool) (c : N) (s : jsstring) :
  p c = false → drop_while p (c :: s) = c :: s.
Proof. intros H. simpl. by rewrite H. Qed.

Lemma drop_while_head (p : N → bool) (s : jsstring) (c : N) (r : jsstring) :
  drop_while p s = c :: r → p c = false.
Proof.
  induction s as [|d s IH]; simpl; [done|].
  destruct (p d) eqn:E; [done|]. by intros [= <- <-].
Qed.

Lemma drop_while_idemp (p : N → bool) (s : jsstring) :
  drop_while p (drop_while p s) = drop_while p s.
Proof.
  destruct (drop_while p s) as [|c r] eqn:E; [done|].
  apply drop_while_stop. by apply (drop_while_head p s c r).
Qed.

Lemma drop_while_app_stop (p : N → bool) (l : jsstring) (c : N) (m : jsstring) :
  p c = false →
  drop_while p (l ++ c :: m) = drop_while p l ++ c :: m.
Proof.
  intros H. induction l as [|d l IH]; simpl; [by rewrite H|].
  by destruct (p d).
Qed.

Lemma drop_while_all (p : N → bool) (s : jsstring) :
  Forall (λ c, p c = true) s → drop_while p s = [].
Proof. induction 1 as [|c s Hc _ IH]; simpl; [done|]. by rewrite Hc. Qed.

Lemma take_while_prefix (p : N → bool) (ds : jsstring) (c : N) (r : jsstring) :
  Forall (λ d, p d = true) ds → p c = false →
  take_while p (ds ++ c :: r) = ds.
Proof.
  intros Hds Hc. induction Hds as [|d ds Hd _ IH]; simpl.
  - by rewrite Hc.
  - by rewrite Hd, IH.
Qed.

Lemma trim_start_trim (s : jsstring) : trim_start (trim s) = trim s.
Proof.
  unfold trim, trim_end, trim_start.
  destruct (drop_while is_whitespace s) as [|c x] eqn:E; [done|].
  pose proof (drop_while_head _ _ _ _ E) as Hc.
  rewrite reverse_cons, (drop_while_app_stop _ _ c [] Hc).
  rewrite reverse_app. simpl. by rewrite Hc.
Qed.

(** [trim] is idempotent: a trimmed string has no white space left at either
    end. *)
Lemma trim_trim (s : jsstring) : trim (trim s) = trim s.
Proof.
  unfold trim at 1. rewrite trim_start_trim.
  unfold trim, trim_end.
  by rewrite reverse_involutive, drop_while_idemp.
Qed.

Lemma parseInt_leading_digits (d : N) (ds : jsstring) (c : N) (rest : jsstring) :
  Forall (λ x, is_digit x = true) (d :: ds) →
  is_digit c = false →
  parseInt (d :: ds ++ c :: rest) = Some (to_number (digits_value (d :: ds)))
  ∧ parseInt (d :: ds) = Some (to_number (digits_value (d :: ds))).
Proof.
  intros Hds Hc.
  assert (Hd : is_digit d = true) by (by inversion Hds).
  destruct (is_digit_plain d Hd) as (Hws & H45 & H43).
  assert (Hsign : ∀ r : jsstring, strip_sign (d :: r) = (1, d :: r)).
  { intros r. unfold strip_sign.
    destruct d as [|q]; [done|].
    do 6 (destruct q as [q|q|]; try done). }
  unfold parseInt, trim_start.
  rewrite !drop_while_stop, !Hsign by done.
  change (d :: ds ++ c :: rest) with ((d :: ds) ++ c :: rest).
  rewrite (take_while_prefix is_digit (d :: ds) c rest Hds Hc).
  assert (Hall : take_while is_digit (d :: ds) = d :: ds).
  { clear -Hds. induction Hds as [|x l Hx _ IH]; simpl; [done|].
    by rewrite Hx, IH. }
  rewrite Hall.
  split; f_equal; lia.
Qed.

(** A dotted segment that starts with digits contributes the value of those
    digits, whatever other characters follow them: it counts exactly like
    the digits alone. *)
Theorem segment_leading_digits (d : N) (ds : jsstring) (c : N) (rest : jsstring) :
  Forall (λ x, is_digit x = true) (d :: ds) →
  is_digit c = false →
  segment_value (d :: ds ++ c :: rest) = segment_value (d :: ds)
  ∧ segment_value (d :: ds) = to_number (digits_value (d :: ds)).
Proof.
  intros Hds Hc. unfold segment_value.
  destruct (parseInt_leading_digits d ds c rest Hds Hc) as [-> ->]. done.
Qed.

Lemma split_nonempty (sep : N) (s : jsstring) : split sep s ≠ [].
Proof.
  induction s as [|c s IH]; simpl; [done|].
  destruct (c =? sep)%N; [done|]. by destruct (split sep s).
Qed.

(** The parts of a parsed version are never empty, whatever the input. *)
Theorem parse_parts_nonempty (v : jsstring) : parts (parse v) ≠ [].
Proof.
  simpl. unfold segments.
  pose proof (split_nonempty 46 (split_build v).1) as H.
  by destruct (split 46 (split_build v).1).
Qed.

(** An empty or white-space-only string parses to the single part 0 with
    build 0. *)
Theorem parse_blank (v : jsstring) :
  Forall (λ c, is_whitespace c = true) v →
  parse v = {| parts := [0]; build := 0 |}.
Proof.
  intros Hv.
  assert (Ht : trim v = []).
  { unfold trim, trim_start. by rewrite (drop_while_all _ _ Hv). }
  unfold parse, segments, split_build. by rewrite Ht.
Qed.

Lemma last_drop_while (p : N → bool) (s : jsstring) (c : N) (r : jsstring) :
  drop_while p s = c :: r → last s = last (c :: r).
Proof.
  induction s as [|d s IH]; simpl; [done|].
  destruct (p d); [|by intros [= <- <-]].
  intros H. rewrite <- (IH H). destruct s; [done|done].
Qed.

Lemma match_build_suffix_last (s ds : jsstring) :
  match_build_suffix s = Some ds → last s = Some 41%N.
Proof.
  unfold match_build_suffix.
  destruct (drop_while is_whitespace s) as [|c r] eqn:E; [done|].
  assert (Hc : match c with 40%N => True | _ => False end →
               drop_while is_digit r = [41%N] → last s = Some 41%N).
  { intros _ Hr. rewrite (last_drop_while _ _ _ _ E).
    destruct r as [|x r']; [done|].
    change (last (c :: x :: r')) with (last (x :: r')).
    by rewrite (last_drop_while _ _ _ _ Hr). }
  destruct c as [|q]; [done|].
  do 6 (destruct q as [q|q|]; try done).
  destruct (take_while is_digit r); [done|].
  destruct (drop_while is_digit r) as [|y t] eqn:Er; [done|].
  destruct y as [|q]; [done|].
  do 6 (destruct q as [q|q|]; try done).
  destruct t; [|done].
  intros _. by apply Hc.
Qed.

Lemma match_lazy_main_last (s : jsstring) :
  ∀ acc m, match_lazy_main acc s = Some m → last s = Some 41%N.
Proof.
  induction s as [|c s IH]; intros acc m; simpl.
  - by destruct (match_build_suffix []) eqn:E.
  - destruct (match_build_suffix (c :: s)) as [ds|] eqn:E.
    + intros _. by apply (match_build_suffix_last _ ds).
    + destruct (is_line_terminator c); [done|].
      intros H. apply IH in H. destruct s; [done|done].
Qed.

(** Without a closing parenthesis at the very end of the trimmed text there
    is no build number: the build is 0 and the whole trimmed text is the
    main part. *)
Theorem no_build_suffix (v : jsstring) :
  last (trim v) ≠ Some 41%N →
  build (parse v) = 0 ∧ segments v = split 46 (trim v).
Proof.
  intros Hlast.
  assert (Hm : match_version (trim v) = None).
  { unfold match_version. destruct (trim v) as [|c s] eqn:E; [done|].
    destruct (is_line_terminator c); [done|].
    destruct (match_lazy_main [c] s) as [m|] eqn:Em; [|done].
    apply match_lazy_main_last in Em. destruct s; [done|].
    by rewrite <- Em in Hlast. }
  unfold parse, segments, split_build. simpl. by rewrite Hm.
Qed.

End Parsing.

(** * Further properties of the deletions and of one task *)

Section Deletions.

Lemma foldl_delete_lookup (l : list jsstring) :
  ∀ (md : gmap jsstring AppRecord.t) (id : jsstring),
    foldl (λ m k, delete k m) md l !! id =
    if decide (id ∈ l) then None else md !! id.
Proof.
  induction l as [|k l IH]; intros md id; simpl.
  - destruct (decide (id ∈ [])) as [H|]; [by apply elem_of_nil in H|done].
  - rewrite IH.
    destruct (decide (id ∈ l)) as [Hin|Hout].
    + destruct (decide (id ∈ k :: l)) as [|Hn]; [done|].
      exfalso. apply Hn. by right.
    + destruct (decide (k = id)) as [->|Hne].
      * rewrite lookup_delete_eq.
        destruct (decide (id ∈ id :: l)) as [|Hn]; [done|].
        exfalso. apply Hn. by left.
      * rewrite lookup_delete_ne by done.
        destruct (decide (id ∈ k :: l)) as [Hin|]; [|done].
        apply elem_of_cons in Hin as [->|?]; done.
Qed.

Lemma deleted_ids_spec (newIds : list jsstring)
    (md : gmap jsstring AppRecord.t) (id : jsstring) :
  id ∈ List.filter (λ id, negb (bool_decide (id ∈ newIds)))
         (map_to_list md).*1
  ↔ is_Some (md !! id) ∧ id ∉ newIds.
Proof.
  rewrite list_elem_of_In, filter_In, <- list_elem_of_In,
    negb_true_iff, bool_decide_eq_false.
  rewrite list_elem_of_fmap. split.
  - intros [([k r] & -> & Hin) Hout]. split; [|done].
    apply elem_of_map_to_list in Hin. simpl. eauto.
  - intros [[r Hr] Hout]. split; [|done].
    exists (id, r). split; [done|]. by apply elem_of_map_to_list.
Qed.

Lemma handleDeletions_kept (newIds : list jsstring)
    (md : gmap jsstring AppRecord.t) (id : jsstring) :
  (handleDeletions newIds md).1 !! id =
  if decide (id ∈ newIds) then md !! id else None.
Proof.
  unfold handleDeletions. simpl. rewrite foldl_delete_lookup.
  destruct (decide (id ∈ List.filter _ _)) as [Hd|Hd].
  - apply deleted_ids_spec in Hd as [_ Hout].
    by destruct (decide (id ∈ newIds)).
  - destruct (decide (id ∈ newIds)) as [|Hout]; [done|].
    destruct (md !! id) as [r|] eqn:Hr; [|done].
    exfalso. apply Hd, deleted_ids_spec. eauto.
Qed.

(** After the deletions, the table holds exactly the records whose key is
    still tracked, unchanged. *)
Theorem handleDeletions_lookup (newIds : list jsstring)
    (md : gmap jsstring AppRecord.t) (id : jsstring) :
  (handleDeletions newIds md).1 !! id =
  if decide (id ∈ newIds) then md !! id else None.
Proof. apply handleDeletions_kept. Qed.

(** A removal line is printed exactly for the records whose key is no
    longer tracked; it carries the record's name or, when the name is empty,
    the key after "ID: ". *)
Theorem handleDeletions_lines (newIds : list jsstring)
    (md : gmap jsstring AppRecord.t) (line : LogLine) :
  line ∈ (handleDeletions newIds md).2
  ↔ ∃ id r, md !! id = Some r ∧ (id ∉ newIds) ∧ line = removal_line id r.
Proof.
  unfold handleDeletions. simpl. rewrite list_elem_of_omap. split.
  - intros (id & Hin & Hline).
    apply deleted_ids_spec in Hin as [_ Hout].
    destruct (md !! id) as [r|] eqn:Hr; [|done].
    injection Hline as <-. by exists id, r.
  - intros (id & r & Hr & Hout & ->). exists id. split.
    + apply deleted_ids_spec. eauto.
    + by rewrite Hr.
Qed.

Lemma filter_none {A : Type} (f : A → bool) (l : list A) :
  (∀ x, x ∈ l → f x = false) → List.filter f l = [].
Proof.
  induction l as [|x l IH]; intros H; simpl; [done|].
  rewrite (H x) by (by left). apply IH. intros y Hy. apply H. by right.
Qed.

(** With every key of the table tracked, the deletions change nothing. *)
Lemma handleDeletions_noop (newIds : list jsstring)
    (md : gmap jsstring AppRecord.t) :
  (∀ id, is_Some (md !! id) → id ∈ newIds) →
  handleDeletions newIds md = (md, []).
Proof.
  intros Hall. unfold handleDeletions.
  rewrite filter_none; [done|].
  intros id Hin. apply negb_false_iff, bool_decide_eq_true.
  apply Hall. apply list_elem_of_fmap in Hin as ([k r] & -> & Hin).
  apply elem_of_map_to_list in Hin. simpl. eauto.
Qed.

(** The deletions are idempotent: on their own result they delete nothing
    and print nothing. *)
Theorem handleDeletions_idempotent (newIds : list jsstring)
    (md : gmap jsstring AppRecord.t) :
  handleDeletions newIds (handleDeletions newIds md).1
  = ((handleDeletions newIds md).1, []).
Proof.
  apply handleDeletions_noop. intros id. rewrite handleDeletions_kept.
  destruct (decide (id ∈ newIds)); [done|]. by intros [? ?].
Qed.

End Deletions.

Section TaskEffects.

Variable JSON_parse_lookup : jsstring → option LookupJson.
Variable httpGet : nat → nat → jsstring → jsstring → HttpReply.

Abbreviation lookup' := (lookupApp JSON_parse_lookup httpGet).
Abbreviation resolve' := (probe JSON_parse_lookup httpGet).
Abbreviation checkApp' := (checkAppUpdate JSON_parse_lookup httpGet).

(** A lookup answers exactly when there is no transport error, the status
    is 200, the payload parses, its result count is positive and its results
    array has a first entry, which is the answer.  A positive count with a
    missing or empty array is a miss. *)
Theorem lookupApp_answers (task attempt : nat) (region appId : jsstring)
    (appInfo : AppInfo.t) :
  let reply := httpGet task attempt region appId in
  lookup' task attempt region appId = Some appInfo
  ↔ error reply = false
    ∧ status reply = Some 200
    ∧ ∃ json rs,
        JSON_parse_lookup (data reply) = Some json
        ∧ 0 < resultCount json
        ∧ results json = Some (appInfo :: rs).
Proof.
  intros reply. unfold lookupApp. fold reply.
  destruct (error reply); simpl; [by split; [|intros [? _]]|].
  destruct (decide (status reply = Some 200)) as [Hs|Hs].
  - rewrite (bool_decide_eq_true_2 _ Hs). simpl.
    destruct (JSON_parse_lookup (data reply)) as [json|];
      [|split; [done|by intros (_ & _ & ? & ? & ? & _)]].
    destruct (Z.gtb_spec (resultCount json) 0) as [Hc|Hc].
    + destruct (results json) as [[|x rs]|] eqn:Hr; simpl.
      * split; [done|]. intros (_ & _ & j & r & [= <-] & _ & Hx).
        rewrite Hr in Hx. done.
      * split.
        -- intros [= ->]. split; [done|split; [done|]]. exists json, rs.
           split; [done|split; [lia|done]].
        -- intros (_ & _ & j & r & [= <-] & _ & Hx).
           rewrite Hr in Hx. by injection Hx as -> _.
      * split; [done|]. intros (_ & _ & j & r & [= <-] & _ & Hx).
        rewrite Hr in Hx. done.
    + split; [done|]. intros (_ & _ & j & r & [= <-] & Hpos & _). lia.
  - rewrite (bool_decide_eq_false_2 _ Hs). simpl.
    split; [done|]. by intros (_ & ? & _).
Qed.


(** A task touches no entry but that of its own identifier. *)
Lemma checkAppUpdate_other (task : nat) (appId : jsstring)
    (regions : list jsstring) (sh : Shared) (id : jsstring) :
  id ≠ appId →
  monitoredData (checkApp' task appId regions sh) !! id
  = monitoredData sh !! id.
Proof.
  intros Hne.
  pose proof (checkAppUpdate_cases JSON_parse_lookup httpGet
                task appId regions sh) as [_ Hc].
  destruct ((resolve' task 0 appId regions).1) as [[appInfo regionUsed]|].
  - destruct Hc as (sh0 & -> & Hmd & _).
    pose proof (record_observation_cases appId appInfo regionUsed sh0)
      as (_ & _ & Hr).
    rewrite Hmd in Hr.
    destruct (storedVersion_of (monitoredData sh) appId).
    + destruct (compareVersions _ _ >? 0);
        destruct Hr as (_ & -> & _); [by rewrite lookup_insert_ne|done].
    + destruct Hr as (_ & -> & _). by rewrite lookup_insert_ne.
  - by destruct Hc as (_ & -> & _).
Qed.

(** Entry and notification go together: a task either leaves the table and
    the notifications as they were, or writes the entry of its own
    identifier and posts exactly one notification.  The defensive branch
    that would write without notifying is never taken. *)
Theorem write_with_notification (task : nat) (appId : jsstring)
    (regions : list jsstring) (sh : Shared) :
  let sh' := checkApp' task appId regions sh in
  (monitoredData sh' = monitoredData sh ∧ posted sh' = posted sh)
  ∨ ∃ appInfo regionUsed n,
      (resolve' task 0 appId regions).1 = Some (appInfo, regionUsed)
      ∧ monitoredData sh' =
          <[appId := entry_of appInfo regionUsed]> (monitoredData sh)
      ∧ posted sh' = posted sh ++ [n].
Proof.
  intros sh'.
  pose proof (checkAppUpdate_cases JSON_parse_lookup httpGet
                task appId regions sh) as [_ Hc].
  fold sh' in Hc.
  destruct ((resolve' task 0 appId regions).1) as [[appInfo regionUsed]|].
  - destruct Hc as (sh0 & Hsh' & Hmd & _ & Hp).
    pose proof (record_observation_cases appId appInfo regionUsed sh0)
      as (_ & _ & Hr).
    rewrite <- Hsh', Hmd, Hp in Hr.
    destruct (storedVersion_of (monitoredData sh) appId).
    + destruct (compareVersions _ _ >? 0).
      * destruct Hr as (_ & Hm & n & Hn). right. by eauto 10.
      * destruct Hr as (_ & Hm & Hn). by left.
    + destruct Hr as (_ & Hm & Hn). right. by eauto 10.
  - destruct Hc as (_ & Hm & Hn). by left.
Qed.

(** Every task adds exactly one line to the buckets, and as many
    notifications as lines to the first-seen and updated buckets. *)
Lemma checkAppUpdate_accounting (task : nat) (appId : jsstring)
    (regions : list jsstring) (sh : Shared) :
  let sh' := checkApp' task appId regions sh in
  total_lines (logs sh') = S (total_lines (logs sh))
  ∧ (length (posted sh') + length (initial (logs sh))
     + length (updated (logs sh))
     = length (posted sh) + length (initial (logs sh'))
       + length (updated (logs sh')))%nat.
Proof.
  intros sh'.
  pose proof (checkAppUpdate_cases JSON_parse_lookup httpGet
                task appId regions sh) as [_ Hc].
  fold sh' in Hc. unfold total_lines.
  destruct ((resolve' task 0 appId regions).1) as [[appInfo regionUsed]|].
  - destruct Hc as (sh0 & Hsh' & Hmd & Hl & Hp).
    pose proof (record_observation_cases appId appInfo regionUsed sh0)
      as (_ & _ & Hr).
    rewrite <- Hsh', Hmd, Hl, Hp in Hr.
    destruct (storedVersion_of (monitoredData sh) appId).
    + destruct (compareVersions _ _ >? 0).
      * destruct Hr as (-> & _ & n & ->). simpl.
        rewrite !length_app. simpl. lia.
      * destruct Hr as (-> & _ & ->). simpl.
        rewrite !length_app. simpl. lia.
    + destruct Hr as (-> & _ & ->). simpl.
      rewrite !length_app. simpl. lia.
  - destruct Hc as (-> & _ & ->). simpl. rewrite !length_app. simpl. lia.
Qed.

End TaskEffects.

(** * Further properties of a run *)

Section RunEffects.

Variable JSON_parse_table : jsstring → option (gmap jsstring AppRecord.t).
Variable JSON_stringify : gmap jsstring AppRecord.t → jsstring.
Variable JSON_parse_lookup : jsstring → option LookupJson.
Variable toLowerCase : jsstring → jsstring.
Variable httpGet : nat → nat → jsstring → jsstring → HttpReply.

Abbreviation resolve'' := (probe JSON_parse_lookup httpGet).
Abbreviation checkApp'' := (checkAppUpdate JSON_parse_lookup httpGet).
Abbreviation tasks'' := (run_tasks JSON_parse_lookup httpGet).
Abbreviation run'' :=
  (main JSON_parse_table JSON_stringify JSON_parse_lookup toLowerCase httpGet).

(** The tracked identifiers are non-empty and trimmed. *)
Theorem newIds_trimmed (appStoreIds : option jsstring) (id : jsstring) :
  id ∈ newIds_of appStoreIds → id ≠ [] ∧ trim id = id.
Proof.
  unfold newIds_of. destruct appStoreIds as [ids|]; [|by intros ?%elem_of_nil].
  destruct (truthy ids); [|by intros ?%elem_of_nil].
  rewrite list_elem_of_In, filter_In, in_map_iff.
  intros [(piece & <- & _) Ht]. split.
  - by destruct (trim piece).
  - apply trim_trim.
Qed.

(** The region order is never empty and has no empty entry; without a
    custom order, or with one that has no entry, it is the default one of
    nine regions. *)
Theorem regions_never_empty (customRegionsRaw : option jsstring) :
  let regions := regions_of toLowerCase customRegionsRaw in
  regions ≠ []
  ∧ (∀ r, r ∈ regions → r ≠ [])
  ∧ (regions = defaultRegions
     ∨ ∃ raw, customRegionsRaw = Some raw
         ∧ regions =
             List.filter truthy
               (map (λ r, toLowerCase (trim r)) (split 44 raw)))
  ∧ length defaultRegions = 9%nat.
Proof.
  intros regions. subst regions. unfold regions_of.
  assert (Hdef : defaultRegions ≠ [] ∧ ∀ r, r ∈ defaultRegions → r ≠ []).
  { split; [done|]. intros r Hr.
    unfold defaultRegions in Hr. simpl in Hr.
    repeat (apply elem_of_cons in Hr as [->|Hr]; [done|]).
    by apply elem_of_nil in Hr. }
  destruct customRegionsRaw as [raw|];
    [|by split; [apply Hdef|split; [apply Hdef|split; [left|]]]].
  destruct (truthy raw);
    [|by split; [apply Hdef|split; [apply Hdef|split; [left|]]]].
  destruct (List.filter truthy _) as [|r0 rs] eqn:E; simpl;
    [by split; [apply Hdef|split; [apply Hdef|split; [left|]]]|].
  split; [done|]. split; [|split; [right; by exists raw|done]].
  intros r Hr. rewrite <- E in Hr.
  apply list_elem_of_In, filter_In in Hr as [_ Ht]. by destruct r.
Qed.

Lemma main_inactive (completion : list nat) (store : Store) :
  newIds_of (AppStore_AppID store) = [] →
  table (run'' completion store) = ∅
  ∧ requests (run'' completion store) = []
  ∧ (length (written (run'' completion store)) ≤ 1)%nat.
Proof.
  intros H. unfold main. rewrite H. simpl.
  destruct (_ && _); simpl; [repeat split; lia|].
  destruct (has_stored_data _); simpl; repeat split; lia.
Qed.

(** Every run writes the stored state at most once, and a run that sent a
    request writes exactly once, after all tasks. *)
Theorem single_write (completion : list nat) (store : Store) :
  (length (written (run'' completion store)) ≤ 1)%nat
  ∧ (requests (run'' completion store) ≠ [] →
     written (run'' completion store)
     = [JSON_stringify (table (run'' completion store))]).
Proof.
  destruct (decide (newIds_of (AppStore_AppID store) = [])) as [He|Hne].
  - destruct (main_inactive completion store He) as (_ & Hr & Hw).
    split; [done|]. by rewrite Hr.
  - rewrite (main_active JSON_parse_table JSON_stringify JSON_parse_lookup
               toLowerCase httpGet completion store Hne).
  cbn [table requests written notifications buckets removed].
    split; [simpl; lia|done].
Qed.

Lemma run_tasks_keys (newIds regions : list jsstring) (order : list nat) :
  ∀ sh id,
    is_Some (monitoredData (tasks'' newIds regions order sh) !! id) →
    is_Some (monitoredData sh !! id) ∨ id ∈ newIds.
Proof.
  induction order as [|task order IH]; intros sh id; [by left|].
  rewrite run_tasks_cons. intros H. apply IH in H as [H|H]; [|by right].
  destruct (newIds !! task) as [appId|] eqn:Ht; [|by left].
  destruct (decide (id = appId)) as [->|Hne].
  - right. by apply list_elem_of_lookup_2 in Ht.
  - left. by rewrite checkAppUpdate_other in H.
Qed.

(** After a run, every key of the table it holds is a tracked identifier:
    records of identifiers that are no longer tracked are gone. *)
Theorem table_keys_tracked (completion : list nat) (store : Store)
    (id : jsstring) :
  is_Some (table (run'' completion store) !! id) →
  id ∈ newIds_of (AppStore_AppID store).
Proof.
  destruct (decide (newIds_of (AppStore_AppID store) = [])) as [He|Hne].
  - destruct (main_inactive completion store He) as (-> & _).
    rewrite lookup_empty. by intros [? ?].
  - rewrite (main_active JSON_parse_table JSON_stringify JSON_parse_lookup
               toLowerCase httpGet completion store Hne).
  cbn [table requests written notifications buckets removed].
    intros H. apply run_tasks_keys in H as [H|H]; [|done].
    unfold fresh in H. cbn [monitoredData] in H.
    rewrite handleDeletions_kept in H.
    destruct (decide (id ∈ newIds_of (AppStore_AppID store))); [done|].
    by destruct H.
Qed.

Lemma run_tasks_keep (newIds regions : list jsstring) (order : list nat) :
  ∀ sh id,
    is_Some (monitoredData sh !! id) →
    is_Some (monitoredData (tasks'' newIds regions order sh) !! id).
Proof.
  induction order as [|task order IH]; intros sh id H; [done|].
  rewrite run_tasks_cons. apply IH.
  destruct (newIds !! task) as [appId|]; [|done].
  by apply (check_first_seen JSON_parse_lookup httpGet task appId regions sh).
Qed.

(** A run never loses the record of a tracked identifier: a record loaded
    for an identifier that is still tracked is there at the end, whatever
    the lookups return. *)
Theorem tracked_records_survive (completion : list nat) (store : Store)
    (id : jsstring) :
  id ∈ newIds_of (AppStore_AppID store) →
  is_Some (load_table JSON_parse_table (AppStore_Monitored_Apps store) !! id) →
  is_Some (table (run'' completion store) !! id).
Proof.
  intros Hin Hrec.
  assert (Hne : newIds_of (AppStore_AppID store) ≠ []).
  { intros He. rewrite He in Hin. by apply elem_of_nil in Hin. }
  rewrite (main_active JSON_parse_table JSON_stringify JSON_parse_lookup
             toLowerCase httpGet completion store Hne).
  cbn [table requests written notifications buckets removed].
  apply run_tasks_keep. unfold fresh. cbn [monitoredData].
  rewrite handleDeletions_kept.
  by destruct (decide (id ∈ newIds_of (AppStore_AppID store))).
Qed.

Lemma run_tasks_accounting (newIds regions : list jsstring)
    (order : list nat) :
  (∀ t, t ∈ order → (t < length newIds)%nat) →
  ∀ sh,
    let sh' := tasks'' newIds regions order sh in
    total_lines (logs sh') = (total_lines (logs sh) + length order)%nat
    ∧ (length (posted sh') + length (initial (logs sh))
       + length (updated (logs sh))
       = length (posted sh) + length (initial (logs sh'))
         + length (updated (logs sh')))%nat.
Proof.
  induction order as [|task order IH]; intros Hval sh.
  - simpl. split; lia.
  - intros sh'. subst sh'. rewrite run_tasks_cons.
    destruct (lookup_lt_is_Some_2 newIds task) as [appId ->];
      [apply Hval; by left|].
    pose proof (checkAppUpdate_accounting JSON_parse_lookup httpGet
                  task appId regions sh) as [H1 H2].
    assert (Hval' : ∀ t, t ∈ order → (t < length newIds)%nat)
      by (intros t Ht; apply Hval; by right).
    destruct (IH Hval' (checkApp'' task appId regions sh)) as [H3 H4].
    split; [rewrite H3, H1; simpl; lia|lia].
Qed.

(** In a run that resolves identifiers, with every task completing once,
    each task leaves exactly one line in the buckets, and the notifications
    are as many as the lines of the first-seen and updated buckets. *)
Theorem one_line_per_task (completion : list nat) (store : Store) :
  let newIds := newIds_of (AppStore_AppID store) in
  newIds ≠ [] →
  completion ≡ₚ seq 0 (length newIds) →
  total_lines (buckets (run'' completion store)) = length newIds
  ∧ length (notifications (run'' completion store))
    = (length (initial (buckets (run'' completion store)))
       + length (updated (buckets (run'' completion store))))%nat.
Proof.
  intros newIds Hne Hperm.
  rewrite (main_active JSON_parse_table JSON_stringify JSON_parse_lookup
             toLowerCase httpGet completion store Hne).
  cbn [table requests written notifications buckets removed].
  fold newIds.
  assert (Hval : ∀ t, t ∈ completion → (t < length newIds)%nat).
  { intros t Ht. rewrite Hperm in Ht. apply elem_of_seq in Ht. lia. }
  match goal with
  | |- context [tasks'' newIds ?r completion ?sh0] =>
      destruct (run_tasks_accounting newIds r completion Hval sh0)
        as [H1 H2]
  end.
  assert (Hlen : length completion = length newIds)
    by (by rewrite Hperm, length_seq).
  rewrite H1, Hlen.
  unfold fresh in H2.
  cbn [logs posted no_logs initial updated length] in H2.
  split; [reflexivity|unfold fresh; lia].
Qed.

Lemma run_tasks_all_miss (newIds regions : list jsstring)
    (order : list nat) :
  (∀ t appId, newIds !! t = Some appId →
     (resolve'' t 0 appId regions).1 = None) →
  ∀ sh,
    let sh' := tasks'' newIds regions order sh in
    monitoredData sh' = monitoredData sh
    ∧ posted sh' = posted sh
    ∧ initial (logs sh') = initial (logs sh)
    ∧ updated (logs sh') = updated (logs sh)
    ∧ noUpdate (logs sh') = noUpdate (logs sh).
Proof.
  intros Hmiss. induction order as [|task order IH]; intros sh; [done|].
  intros sh'. subst sh'. rewrite run_tasks_cons.
  destruct (newIds !! task) as [appId|] eqn:Ht; [|apply IH].
  pose proof (checkAppUpdate_cases JSON_parse_lookup httpGet
                task appId regions sh) as [_ Hc].
  rewrite (Hmiss task appId Ht) in Hc. destruct Hc as (Hl & Hm & Hp).
  destruct (IH (checkApp'' task appId regions sh)) as (-> & -> & -> & -> & ->).
  by rewrite Hm, Hp, Hl.
Qed.

(** When no region answers for any tracked identifier, the run posts
    nothing, classifies nothing, and writes back the table exactly as it
    was after the deletions. *)
Theorem all_regions_exhausted (completion : list nat) (store : Store) :
  let newIds := newIds_of (AppStore_AppID store) in
  let regions := regions_of toLowerCase (AppStore_Region store) in
  newIds ≠ [] →
  (∀ t appId, newIds !! t = Some appId →
     (resolve'' t 0 appId regions).1 = None) →
  notifications (run'' completion store) = []
  ∧ table (run'' completion store)
    = (handleDeletions newIds
         (load_table JSON_parse_table (AppStore_Monitored_Apps store))).1
  ∧ initial (buckets (run'' completion store)) = []
  ∧ updated (buckets (run'' completion store)) = []
  ∧ noUpdate (buckets (run'' completion store)) = [].
Proof.
  intros newIds regions Hne Hmiss.
  rewrite (main_active JSON_parse_table JSON_stringify JSON_parse_lookup
             toLowerCase httpGet completion store Hne).
  cbn [table requests written notifications buckets removed].
  fold newIds regions.
  match goal with
  | |- context [tasks'' newIds regions completion ?sh] =>
      destruct (run_tasks_all_miss newIds regions completion Hmiss sh)
        as (Hm & Hp & Hi & Hu & Hn)
  end.
  by rewrite Hm, Hp, Hi, Hu, Hn.
Qed.

End RunEffects.

(** * The completion order of the tasks *)

Section CompletionOrder.

Variable JSON_parse_table : jsstring → option (gmap jsstring AppRecord.t).
Variable JSON_stringify : gmap jsstring AppRecord.t → jsstring.
Variable JSON_parse_lookup : jsstring → option LookupJson.
Variable toLowerCase : jsstring → jsstring.
Variable httpGet : nat → nat → jsstring → jsstring → HttpReply.

Abbreviation checkApp3 := (checkAppUpdate JSON_parse_lookup httpGet).
Abbreviation tasks3 := (run_tasks JSON_parse_lookup httpGet).
Abbreviation run3 :=
  (main JSON_parse_table JSON_stringify JSON_parse_lookup toLowerCase httpGet).




End CompletionOrder.

(** * Worked runs for the further properties *)

Lemma compareVersions_trans_witness :
  0 ≤ compare "2.0" "1.9".
Proof.
  apply (compareVersions_trans (of_string "2.0") (of_string "1.10")
           (of_string "1.9")); vm_compute; discriminate.
Defined.

Lemma trailing_zero_parts_ignored_witness :
  compare "1.2.0" "1.2.1" = compare "1.2" "1.2.1".
Proof.
  apply (trailing_zero_parts_ignored (of_string "1.2") (of_string "1.2.0")
           (of_string "1.2.1") 1); vm_compute; reflexivity.
Defined.

(** The segment "8beta" contributes 8. *)
Lemma segment_leading_digits_witness :
  segment_value (of_string "8beta") = segment_value (of_string "8")
  ∧ segment_value (of_string "8") = 8.
Proof.
  apply (segment_leading_digits 56 [] 98 (of_string "eta")).
  - repeat constructor.
  - reflexivity.
Defined.

Lemma parse_blank_witness :
  parse (of_string "  ") = {| parts := [0]; build := 0 |}.
Proof.
  apply parse_blank. repeat constructor.
Defined.

Lemma no_build_suffix_witness :
  build (parse (of_string "6.8")) = 0.
Proof.
  destruct (no_build_suffix (of_string "6.8")) as [H _].
  - vm_compute. discriminate.
  - exact H.
Defined.

Lemma newIds_trimmed_witness :
  of_string "7" ≠ [] ∧ trim (of_string "7") = of_string "7".
Proof.
  apply (newIds_trimmed (Some (of_string " 7 , 8")) (of_string "7")).
  vm_compute. by left.
Defined.

(** A record of an identifier that is no longer tracked is not in the table
    after the run: every key left is tracked. *)
Lemma table_keys_tracked_witness :
  Demo.id1 ∈ newIds_of (Some (of_string "1")).
Proof.
  apply (table_keys_tracked Demo.parse_known Demo.stringify
           Demo.parse_lookup Demo.lower (Demo.http []) [0%nat]
           (Demo.store (Some (of_string "1")) (Some (of_string "6.8")))).
  apply (run_tasks_keep Demo.parse_lookup (Demo.http [])).
  change (is_Some (({[ Demo.id1 := Demo.stored (of_string "6.8") ]}
                      : gmap jsstring AppRecord.t) !! Demo.id1)).
  rewrite lookup_singleton_eq. eauto.
Defined.

Lemma tracked_records_survive_witness :
  is_Some
    (table
       (main Demo.parse_known Demo.stringify Demo.parse_lookup Demo.lower
          (Demo.http (of_string "6.9")) [0%nat]
          (Demo.store (Some (of_string "1")) (Some (of_string "6.8"))))
     !! Demo.id1).
Proof.
  apply (tracked_records_survive Demo.parse_known Demo.stringify
           Demo.parse_lookup Demo.lower (Demo.http (of_string "6.9")) [0%nat]
           (Demo.store (Some (of_string "1")) (Some (of_string "6.8")))).
  - vm_compute. by left.
  - simpl. rewrite lookup_singleton_eq. eauto.
Defined.

Lemma one_line_per_task_witness :
  total_lines
    (buckets
       (main Demo.parse_table Demo.stringify Demo.parse_lookup Demo.lower
          (Demo.http (of_string "6.8")) [1%nat; 0%nat]
          (Demo.store (Some (of_string "1,1")) None)))
  = 2%nat.
Proof.
  destruct (one_line_per_task Demo.parse_table Demo.stringify
              Demo.parse_lookup Demo.lower (Demo.http (of_string "6.8"))
              [1%nat; 0%nat] (Demo.store (Some (of_string "1,1")) None))
    as [H _].
  - vm_compute. discriminate.
  - vm_compute. apply perm_swap.
  - exact H.
Defined.

Lemma all_regions_exhausted_witness :
  notifications
    (main Demo.parse_known Demo.stringify Demo.parse_lookup Demo.lower
       (Demo.http []) [0%nat]
       (Demo.store (Some (of_string "1")) (Some (of_string "6.8"))))
  = [].
Proof.
  destruct (all_regions_exhausted Demo.parse_known Demo.stringify
              Demo.parse_lookup Demo.lower (Demo.http []) [0%nat]
              (Demo.store (Some (of_string "1")) (Some (of_string "6.8"))))
    as [H _].
  - vm_compute. discriminate.
  - intros t appId _. reflexivity.
  - exact H.
Defined.

